(** * go-sync: a bounded object pool (pool.go)

    A shallow embedding of [Pool[T]] and of the two library objects it is
    built from, [sync.Pool] and [semaphore.Weighted], followed by the
    properties of the pool's lifecycle: construction, bootstrap, borrow,
    return and the approximate live count.

    Calls are modelled as atomic steps on the pool's state; an interleaving
    of calls made by several goroutines is the sequence of those steps. *)

From Stdlib Require Import ZArith List Bool Lia Permutation.
Import ListNotations.
Open Scope Z_scope.

(** ** Machine integers *)

(** [atomic.Int32] arithmetic wraps around in two's complement. *)
Definition wrap32 (z : Z) : Z := (z + 2 ^ 31) mod 2 ^ 32 - 2 ^ 31.

(** ** Items and contexts *)

(** Items are pointers ("Factory should only return pointer types"); an item
    is identified by the allocation that produced it. *)
Abbreviation Item := nat (only parsing).

(** What a [context.Context] can do to a call that waits on it:
    [Background] is never done, [Cancelled] is done before the call starts,
    [Expiring] is live when the call starts and becomes done while it waits. *)
Inductive Context : Type :=
| Background
| Cancelled
| Expiring.

Definition is_done (ctx : Context) : bool :=
  match ctx with
  | Cancelled => true
  | _ => false
  end.

(** ** golang.org/x/sync/semaphore *)

Module semaphore.

(** [size] and [cur] of [semaphore.Weighted].  The waiters list is left
    out: every waiter asks for weight 1, so it is empty whenever a permit
    is free.  Both fields are int64; no run shorter than 2^63 calls can
    take them out of range, and their arithmetic is written on [Z]. *)
Record Weighted : Type := { size : Z; cur : Z }.

Definition NewWeighted (n : Z) : Weighted := {| size := n; cur := 0 |}.

Inductive Acquired : Type :=
| Ok (s : Weighted)      (* returned nil, [n] permits taken *)
| CtxErr (s : Weighted)  (* returned ctx.Err(), semaphore unchanged *)
| Waits.                 (* still queued: ctx is never done, no permit *)

(** [Acquire(ctx, n)].  [ctxFirst] tells the release of the library:
    from v0.7.0 on a context that is already done makes the call fail
    before the fast path is tried; earlier releases take a free permit
    whatever the context says. *)
Definition Acquire (ctxFirst : bool) (ctx : Context) (n : Z)
           (s : Weighted) : Acquired :=
  if ctxFirst && is_done ctx then CtxErr s
  else if n <=? size s - cur s
       then Ok {| size := size s; cur := cur s + n |}
       else match ctx with
            | Background => Waits
            | Cancelled | Expiring => CtxErr s
            end.

(** [Release(n)]: [cur] is decremented first, and the call panics with
    "semaphore: released more than held" when it went below zero.  The
    boolean is [true] when it panicked. *)
Definition Release (n : Z) (s : Weighted) : Weighted * bool :=
  let s' := {| size := size s; cur := cur s - n |} in
  (s', cur s' <? 0).

End semaphore.

(** ** sync.Pool *)

Module syncpool.

(** The per-P local of [sync.Pool] (Go's src/sync/pool.go), for one P and
    without the race detector: the [private] slot and the head-first
    [shared] queue, and whether [New] has been set.  The victim cache of
    the collector is not kept apart: an idle item stays in the cache until
    its finalizer runs (see [drop]).  Every call of a run executes on that
    P: which idle item a [Get] serves, and whether it finds one, is stated
    for a caller on the P that holds the items; what is in the cache does
    not depend on the P. *)
Record Pool : Type :=
  { private : option Item; shared : list Item; New : bool }.

Definition empty : Pool :=
  {| private := None; shared := []; New := false |}.

(** [Put]: the private slot when it is free, the head of [shared]
    otherwise. *)
Definition Put (x : Item) (sp : Pool) : Pool :=
  match private sp with
  | None => {| private := Some x; shared := shared sp; New := New sp |}
  | Some _ => {| private := private sp; shared := x :: shared sp;
                 New := New sp |}
  end.

(** The part of [Get] that looks in the cache: the private slot, then the
    head of [shared]. *)
Definition take (sp : Pool) : option Item * Pool :=
  match private sp with
  | Some x => (Some x, {| private := None; shared := shared sp;
                          New := New sp |})
  | None =>
      match shared sp with
      | x :: rest => (Some x, {| private := None; shared := rest;
                                 New := New sp |})
      | [] => (None, sp)
      end
  end.

Definition idle (sp : Pool) : list Item :=
  match private sp with
  | Some x => x :: shared sp
  | None => shared sp
  end.

(** An item the collector reclaims is gone from the cache. *)
Definition drop (x : Item) (sp : Pool) : Pool :=
  {| private := match private sp with
                | Some y => if Nat.eqb x y then None else Some y
                | None => None
                end;
     shared := filter (fun y => negb (Nat.eqb x y)) (shared sp);
     New := New sp |}.

End syncpool.

(** ** The pool and the runtime around it *)

Inductive PoolOption : Type :=
| WithBootstrapItems (c : Z)
| WithSize (l : Z).

Record Pool : Type :=
  { initial : Z;
    max : Z;
    syncPool : syncpool.Pool;
    semMax : option semaphore.Weighted;
    count : Z }.

(** What the Go runtime keeps for the pool: how many objects the factory
    has allocated, and the objects whose finalizer has not run yet. *)
Record Runtime : Type :=
  { allocs : nat;
    finalizers : list Item }.

Record World : Type := { pool : Pool; rt : Runtime }.

Definition apply_option (opt : PoolOption) (p : Pool) : Pool :=
  match opt with
  | WithBootstrapItems c =>
      {| initial := c; max := max p; syncPool := syncPool p;
         semMax := semMax p; count := count p |}
  | WithSize l =>
      {| initial := initial p; max := l; syncPool := syncPool p;
         semMax := semMax p; count := count p |}
  end.

Definition zero_pool : Pool :=
  {| initial := 0; max := 0; syncPool := syncpool.empty;
     semMax := None; count := 0 |}.

Definition apply_options (opts : list PoolOption) : Pool :=
  fold_left (fun p opt => apply_option opt p) opts zero_pool.

Definition NewPool (opts : list PoolOption) : Pool :=
  let pool := apply_options opts in
  let max' := if max pool <? initial pool then initial pool else max pool in
  {| initial := initial pool;
     max := max';
     syncPool := syncPool pool;
     semMax := if 0 <? max' then Some (semaphore.NewWeighted max')
               else None;
     count := count pool |}.

(** A pool in a program that has allocated nothing through it yet. *)
Definition start (p : Pool) : World :=
  {| pool := p; rt := {| allocs := 0; finalizers := [] |} |}.

Definition with_syncPool (sp : syncpool.Pool) (w : World) : World :=
  {| pool := {| initial := initial (pool w); max := max (pool w);
                syncPool := sp; semMax := semMax (pool w);
                count := count (pool w) |};
     rt := rt w |}.

Definition with_semMax (s : semaphore.Weighted) (w : World) : World :=
  {| pool := {| initial := initial (pool w); max := max (pool w);
                syncPool := syncPool (pool w); semMax := Some s;
                count := count (pool w) |};
     rt := rt w |}.

Definition with_initial (i : Z) (w : World) : World :=
  {| pool := {| initial := i; max := max (pool w);
                syncPool := syncPool (pool w); semMax := semMax (pool w);
                count := count (pool w) |};
     rt := rt w |}.

(** ** Calls: return, block or panic *)

Inductive PanicMsg : Type :=
| NilInterface          (* interface conversion: interface is nil *)
| ReleasedMoreThanHeld. (* semaphore: released more than held *)

Inductive Result (A : Type) : Type :=
| Ret (a : A) (w : World)
| Blocked (w : World)
| Panic (m : PanicMsg) (w : World).
Arguments Ret {A} a w.
Arguments Blocked {A} w.
Arguments Panic {A} m w.

Definition M (A : Type) : Type := World -> Result A.

Definition ret {A} (a : A) : M A := fun w => Ret a w.

Definition bind {A B} (m : M A) (k : A -> M B) : M B :=
  fun w =>
    match m w with
    | Ret a w' => k a w'
    | Blocked w' => Blocked w'
    | Panic msg w' => Panic msg w'
    end.

Notation "x <- m ;; k" := (bind m (fun x => k))
  (at level 61, m at next level, right associativity).

(** The state a call leaves behind, however it ended. *)
Definition after {A} (r : Result A) : World :=
  match r with
  | Ret _ w => w
  | Blocked w => w
  | Panic _ w => w
  end.

Definition returned {A} (r : Result A) : bool :=
  match r with
  | Ret _ _ => true
  | _ => false
  end.

Definition blocked {A} (r : Result A) : bool :=
  match r with
  | Blocked _ => true
  | _ => false
  end.

Section PoolCalls.

(** The release of x/sync the program is linked with, see
    [semaphore.Acquire]. *)
Variable ctxFirst : bool.

(** [p.semMax.Acquire(ctx, 1)] as [Borrow] uses it: the error result is
    discarded, so only a wait that never ends stops the call. *)
Definition acquire (ctx : Context) : M unit :=
  fun w =>
    match semMax (pool w) with
    | None => Ret tt w
    | Some s =>
        match semaphore.Acquire ctxFirst ctx 1 s with
        | semaphore.Ok s' => Ret tt (with_semMax s' w)
        | semaphore.CtxErr _ => Ret tt w
        | semaphore.Waits => Blocked w
        end
    end.

(** The function [SetFactory] stores in [syncPool.New]: the factory
    allocates an object, [count] goes up by one and a finalizer is
    registered on the object.  The object is a new one each time
    ([runtime.SetFinalizer] throws on an object that has a finalizer), and
    is named by its allocation number. *)
Definition newItem : M Item :=
  fun w =>
    let x := allocs (rt w) in
    Ret x
        {| pool := {| initial := initial (pool w); max := max (pool w);
                      syncPool := syncPool (pool w);
                      semMax := semMax (pool w);
                      count := wrap32 (count (pool w) + 1) |};
           rt := {| allocs := S (allocs (rt w));
                    finalizers := x :: finalizers (rt w) |} |}.

(** [p.syncPool.Get().(T)]: an idle item if there is one, otherwise
    [New()]; with no [New] the result is nil and the type assertion
    panics. *)
Definition Get : M Item :=
  fun w =>
    match syncpool.take (syncPool (pool w)) with
    | (Some x, sp) => Ret x (with_syncPool sp w)
    | (None, _) =>
        if syncpool.New (syncPool (pool w)) then newItem w
        else Panic NilInterface w
    end.

Definition Borrow (ctx : Context) : M Item :=
  _ <- acquire ctx ;;
  Get.

Definition release : M unit :=
  fun w =>
    match semMax (pool w) with
    | None => Ret tt w
    | Some s =>
        match semaphore.Release 1 s with
        | (s', true) => Panic ReleasedMoreThanHeld (with_semMax s' w)
        | (s', false) => Ret tt (with_semMax s' w)
        end
    end.

Definition ReturnItem (item : Item) : M unit :=
  _ <- (fun w => Ret tt (with_syncPool
                           (syncpool.Put item (syncPool (pool w))) w)) ;;
  release.

Definition Count (w : World) : Z := count (pool w).

(** [for i := 0; i < p.initial; i++ { items = append(items, p.Borrow(ctx)) }];
    [Borrow] does not write [p.initial], so the number of rounds is fixed
    when the loop starts. *)
Fixpoint borrowLoop (ctx : Context) (rounds : nat) (items : list Item)
  : M (list Item) :=
  match rounds with
  | O => ret items
  | S rounds' =>
      x <- Borrow ctx ;;
      borrowLoop ctx rounds' (items ++ [x])
  end.

(** [for j := len(items) - 1; j >= 0; j-- { p.ReturnItem(items[j]) }],
    given the items last first. *)
Fixpoint returnLoop (backwards : list Item) : M unit :=
  match backwards with
  | [] => ret tt
  | x :: rest =>
      _ <- ReturnItem x ;;
      returnLoop rest
  end.

Definition setNew : M unit :=
  fun w =>
    Ret tt (with_syncPool
              {| syncpool.private := syncpool.private (syncPool (pool w));
                 syncpool.shared := syncpool.shared (syncPool (pool w));
                 syncpool.New := true |} w).

Definition SetFactory (ctx : Context) : M unit :=
  _ <- setNew ;;
  fun w =>
    if 0 <? initial (pool w) then
      (items <- borrowLoop ctx (Z.to_nat (initial (pool w))) [] ;;
       _ <- returnLoop (rev items) ;;
       fun w' => Ret tt (with_initial 0 w')) w
    else Ret tt w.

Fixpoint remove1 (x : Item) (l : list Item) : list Item :=
  match l with
  | [] => []
  | y :: l' => if Nat.eqb x y then l' else y :: remove1 x l'
  end.

(** The collector finds [x] unreachable and its finalizer runs: [count]
    goes down by one.  That needs [x] to still have a finalizer, which is
    then gone, and [x] is dropped from the idle cache. *)
Definition finalize (x : Item) (w : World) : option World :=
  if existsb (Nat.eqb x) (finalizers (rt w)) then
    Some {| pool := {| initial := initial (pool w); max := max (pool w);
                       syncPool := syncpool.drop x (syncPool (pool w));
                       semMax := semMax (pool w);
                       count := wrap32 (count (pool w) - 1) |};
            rt := {| allocs := allocs (rt w);
                     finalizers := remove1 x (finalizers (rt w)) |} |}
  else None.

(** ** Runs of calls *)

Inductive Call : Type :=
| CallSetFactory (ctx : Context)
| CallBorrow (ctx : Context)
| CallReturnItem (x : Item)
| CallCount
| Finalizer (x : Item).

(** The pool together with the items its callers hold: borrowed and not
    returned yet. *)
Record Run : Type := { world : World; outstanding : list Item }.

(** One call that comes back; [None] when it blocks, panics, or is a
    finalizer that cannot run. *)
Definition step (c : Call) (r : Run) : option Run :=
  match c with
  | CallSetFactory ctx =>
      match SetFactory ctx (world r) with
      | Ret _ w => Some {| world := w; outstanding := outstanding r |}
      | _ => None
      end
  | CallBorrow ctx =>
      match Borrow ctx (world r) with
      | Ret x w => Some {| world := w; outstanding := x :: outstanding r |}
      | _ => None
      end
  | CallReturnItem x =>
      match ReturnItem x (world r) with
      | Ret _ w =>
          Some {| world := w; outstanding := remove1 x (outstanding r) |}
      | _ => None
      end
  | CallCount => Some r
  | Finalizer x =>
      match finalize x (world r) with
      | Some w => Some {| world := w; outstanding := outstanding r |}
      | None => None
      end
  end.

Fixpoint run (calls : list Call) (r : Run) : option Run :=
  match calls with
  | [] => Some r
  | c :: calls' =>
      match step c r with
      | Some r' => run calls' r'
      | None => None
      end
  end.

Definition fresh (opts : list PoolOption) : Run :=
  {| world := start (NewPool opts); outstanding := [] |}.

End PoolCalls.

(** A statement that holds with either release of the semaphore library. *)
Definition either_release (P : bool -> Prop) : Prop := P true /\ P false.

(** ** Notions used in the statements *)

Definition mkWorld (i mx : Z) (priv : option Item) (sh : list Item)
           (new : bool) (sem : option semaphore.Weighted) (cnt : Z)
           (a : nat) (fin : list Item) : World :=
  {| pool := {| initial := i; max := mx;
                syncPool := {| syncpool.private := priv;
                               syncpool.shared := sh;
                               syncpool.New := new |};
                semMax := sem; count := cnt |};
     rt := {| allocs := a; finalizers := fin |} |}.

Definition gate (m c : Z) : option semaphore.Weighted :=
  Some {| semaphore.size := m; semaphore.cur := c |}.

(** A context that lets [Acquire] take a free permit. *)
Definition takes_free_permit (ctxFirst : bool) (ctx : Context) : bool :=
  negb (ctxFirst && is_done ctx).

(** The world [SetFactory] leaves behind on a pool built with
    [initial = n > 0] and [max = m]. *)
Definition bootstrapped (m : Z) (n : nat) : World :=
  mkWorld 0 m (Some (n - 1)%nat) (seq 0 (n - 1)) true (gate m 0)
          (wrap32 (Z.of_nat n)) n (rev (seq 0 n)).

(** The counter is the number of finalizers still to run, as an int32. *)
Definition counted (w : World) : Prop :=
  count (pool w) = wrap32 (Z.of_nat (length (finalizers (rt w)))).

Definition keeps_counted {A} (m : M A) : Prop :=
  forall w, counted w -> counted (after (m w)).

(** A call made the way the pool expects: contexts that are never done,
    and only items returned that are outstanding. *)
Definition patient_call (c : Call) (held : list Item) : bool :=
  match c with
  | CallSetFactory Background | CallBorrow Background => true
  | CallSetFactory _ | CallBorrow _ => false
  | CallReturnItem x => existsb (Nat.eqb x) held
  | CallCount | Finalizer _ => true
  end.

Fixpoint patient (v : bool) (calls : list Call) (r : Run) : bool :=
  match calls with
  | [] => true
  | c :: calls' =>
      patient_call c (outstanding r)
      && match step v c r with
         | Some r' => patient v calls' r'
         | None => true
         end
  end.

Definition gated (m : Z) (r : Run) : Prop :=
  max (pool (world r)) = m
  /\ semMax (pool (world r)) = gate m (Z.of_nat (length (outstanding r)))
  /\ Z.of_nat (length (outstanding r)) <= m.

Definition before_bootstrap (opts : list PoolOption) (r : Run) : Prop :=
  0 < initial (pool (world r)) -> r = fresh opts.

(** The size and the bootstrap count that the options set last; [d] when
    no option sets one. *)
Fixpoint last_size (opts : list PoolOption) (d : Z) : Z :=
  match opts with
  | [] => d
  | WithSize l :: opts' => last_size opts' l
  | WithBootstrapItems _ :: opts' => last_size opts' d
  end.

Fixpoint last_bootstrap (opts : list PoolOption) (d : Z) : Z :=
  match opts with
  | [] => d
  | WithBootstrapItems c :: opts' => last_bootstrap opts' c
  | WithSize _ :: opts' => last_bootstrap opts' d
  end.

(** The gate of a pool whose maximum is [m]: none when [m] is not positive,
    otherwise of size [m] with between 0 and [m] permits held. *)
Definition gate_ok (m : Z) (w : World) : Prop :=
  max (pool w) = m
  /\ match semMax (pool w) with
     | None => m <= 0
     | Some s => semaphore.size s = m
                 /\ 0 <= semaphore.cur s <= semaphore.size s
     end.

Definition keeps_gate {A} (m : Z) (op : M A) : Prop :=
  forall w a w', gate_ok m w -> op w = Ret a w' -> gate_ok m w'.

(** Runs in which callers return only items they hold. *)
Definition returns_held (c : Call) (held : list Item) : bool :=
  match c with
  | CallReturnItem x => existsb (Nat.eqb x) held
  | _ => true
  end.

Fixpoint honest (v : bool) (calls : list Call) (r : Run) : bool :=
  match calls with
  | [] => true
  | c :: calls' =>
      returns_held c (outstanding r)
      && match step v c r with
         | Some r' => honest v calls' r'
         | None => true
         end
  end.

(** Every item that is outstanding or idle is there once, and is an item
    the factory made. *)
Definition exclusive (r : Run) : Prop :=
  NoDup (outstanding r ++ syncpool.idle (syncPool (pool (world r))))
  /\ Forall (fun y => (y < allocs (rt (world r)))%nat)
            (outstanding r ++ syncpool.idle (syncPool (pool (world r)))).

(** ** Arithmetic of the counter *)

Lemma wrap32_small (z : Z) :
  - 2 ^ 31 <= z < 2 ^ 31 -> wrap32 z = z.
Proof.
  intros Hz. unfold wrap32.
  rewrite Z.mod_small by lia. lia.
Qed.

Lemma wrap32_range (z : Z) : - 2 ^ 31 <= wrap32 z < 2 ^ 31.
Proof.
  unfold wrap32.
  pose proof (Z.mod_pos_bound (z + 2 ^ 31) (2 ^ 32) ltac:(lia)) as Hb.
  lia.
Qed.

Lemma wrap32_add_l (a b : Z) : wrap32 (wrap32 a + b) = wrap32 (a + b).
Proof.
  unfold wrap32.
  replace ((a + 2 ^ 31) mod 2 ^ 32 - 2 ^ 31 + b + 2 ^ 31)
    with ((a + 2 ^ 31) mod 2 ^ 32 + b) by lia.
  rewrite Zplus_mod_idemp_l.
  replace (a + 2 ^ 31 + b) with (a + b + 2 ^ 31) by lia.
  reflexivity.
Qed.

(** ** The two loops of the bootstrap *)

Lemma Borrow_creates (v : bool) (ctx : Context) (i mx m c cnt : Z)
      (a : nat) (fin : list Item) :
  takes_free_permit v ctx = true ->
  c < m ->
  Borrow v ctx (mkWorld i mx None [] true (gate m c) cnt a fin)
  = Ret a (mkWorld i mx None [] true (gate m (c + 1))
                   (wrap32 (cnt + 1)) (S a) (a :: fin)).
Proof.
  intros Hctx Hc.
  unfold takes_free_permit in Hctx. apply negb_true_iff in Hctx.
  unfold Borrow, bind, acquire, gate, semaphore.Acquire. simpl.
  rewrite Hctx.
  replace (1 <=? m - c) with true by (symmetry; apply Z.leb_le; lia).
  reflexivity.
Qed.

Lemma borrowLoop_creates (v : bool) (ctx : Context) (i mx m : Z) :
  takes_free_permit v ctx = true ->
  forall (k : nat) (acc : list Item) (c cnt : Z) (a : nat)
         (fin : list Item),
    c + Z.of_nat k <= m ->
    wrap32 cnt = cnt ->
    borrowLoop v ctx k acc (mkWorld i mx None [] true (gate m c) cnt a fin)
    = Ret (acc ++ seq a k)
          (mkWorld i mx None [] true (gate m (c + Z.of_nat k))
                   (wrap32 (cnt + Z.of_nat k)) (a + k)%nat
                   (rev (seq a k) ++ fin)).
Proof.
  intros Hctx k. induction k as [|k IH]; intros acc c cnt a fin Hk Hcnt.
  - simpl. unfold ret. rewrite app_nil_r, Z.add_0_r, Z.add_0_r, Hcnt.
    rewrite Nat.add_0_r. reflexivity.
  - cbn [borrowLoop]. unfold bind at 1.
    rewrite Borrow_creates by (auto; lia).
    rewrite IH.
    + rewrite <- app_assoc. cbn [seq rev app].
      rewrite wrap32_add_l, <- app_assoc. cbn [app].
      replace (c + 1 + Z.of_nat k) with (c + Z.of_nat (S k)) by lia.
      replace (cnt + 1 + Z.of_nat k) with (cnt + Z.of_nat (S k)) by lia.
      replace (S a + k)%nat with (a + S k)%nat by lia.
      reflexivity.
    + lia.
    + apply wrap32_small, wrap32_range.
Qed.

Lemma ReturnItem_held (x : Item) (i mx m c cnt : Z) (priv : option Item)
      (sh : list Item) (nw : bool) (a : nat) (fin : list Item) :
  1 <= c ->
  ReturnItem x (mkWorld i mx priv sh nw (gate m c) cnt a fin)
  = Ret tt (match priv with
            | None => mkWorld i mx (Some x) sh nw (gate m (c - 1)) cnt a fin
            | Some _ => mkWorld i mx priv (x :: sh) nw (gate m (c - 1))
                                cnt a fin
            end).
Proof.
  intros Hc.
  unfold ReturnItem, bind, release, gate, semaphore.Release. simpl.
  replace (c - 1 <? 0) with false by (symmetry; apply Z.ltb_ge; lia).
  destruct priv; reflexivity.
Qed.

Lemma returnLoop_held (i mx m cnt : Z) (nw : bool) (a : nat)
      (fin : list Item) (p : Item) :
  forall (l sh : list Item) (c : Z),
    Z.of_nat (length l) <= c ->
    returnLoop l (mkWorld i mx (Some p) sh nw (gate m c) cnt a fin)
    = Ret tt (mkWorld i mx (Some p) (rev l ++ sh) nw
                      (gate m (c - Z.of_nat (length l))) cnt a fin).
Proof.
  induction l as [|x l IH]; intros sh c Hc.
  - simpl. unfold ret. rewrite Z.sub_0_r. reflexivity.
  - cbn [returnLoop]. unfold bind at 1.
    cbn [length] in Hc.
    rewrite ReturnItem_held by lia.
    rewrite IH by lia.
    cbn [rev length]. rewrite <- app_assoc. cbn [app].
    replace (c - 1 - Z.of_nat (length l))
      with (c - Z.of_nat (S (length l))) by lia.
    reflexivity.
Qed.

(** ** Construction *)

Lemma apply_options_untouched (opts : list PoolOption) :
  forall p : Pool,
    let q := fold_left (fun p opt => apply_option opt p) opts p in
    syncPool q = syncPool p /\ semMax q = semMax p /\ count q = count p.
Proof.
  induction opts as [|opt opts IH]; intros p; cbn [fold_left].
  - auto.
  - destruct (IH (apply_option opt p)) as (Hs & Hm & Hc).
    cbv zeta. rewrite Hs, Hm, Hc. destruct opt; auto.
Qed.

Lemma NewPool_shape (opts : list PoolOption) :
  let p := NewPool opts in
  start p = mkWorld (initial p) (max p) None [] false
                    (if 0 <? max p then gate (max p) 0 else None) 0 0 [].
Proof.
  cbv zeta. unfold NewPool, start, mkWorld. cbn [initial max syncPool semMax count].
  destruct (apply_options_untouched opts zero_pool) as (Hs & _ & Hc).
  fold (apply_options opts) in Hs, Hc.
  rewrite Hs, Hc. reflexivity.
Qed.

Lemma NewPool_max_ge_initial (opts : list PoolOption) :
  initial (NewPool opts) <= max (NewPool opts).
Proof.
  unfold NewPool. cbn [initial max].
  destruct (max (apply_options opts) <? initial (apply_options opts)) eqn:E.
  - lia.
  - apply Z.ltb_ge in E. lia.
Qed.

Lemma bootstrap_order (n : nat) :
  (0 < n)%nat ->
  rev (seq 0 n) = (n - 1)%nat :: rev (seq 0 (n - 1)).
Proof.
  intros Hn. destruct n as [|n]; [lia|].
  rewrite seq_S, rev_app_distr. cbn [rev app Nat.add].
  replace (S n - 1)%nat with n by lia. reflexivity.
Qed.

Lemma SetFactory_fresh (v : bool) (ctx : Context) (opts : list PoolOption) :
  let p := NewPool opts in
  let n := Z.to_nat (initial p) in
  0 < initial p ->
  takes_free_permit v ctx = true ->
  borrowLoop v ctx n [] (after (setNew (start p)))
  = Ret (seq 0 n)
        (mkWorld (initial p) (max p) None [] true (gate (max p) (initial p))
                 (wrap32 (initial p)) n (rev (seq 0 n)))
  /\ returnLoop (rev (seq 0 n))
                (mkWorld (initial p) (max p) None [] true
                         (gate (max p) (initial p))
                         (wrap32 (initial p)) n (rev (seq 0 n)))
     = Ret tt (with_initial (initial p) (bootstrapped (max p) n))
  /\ SetFactory v ctx (start p) = Ret tt (bootstrapped (max p) n).
Proof.
  intros p n Hpos Hctx.
  pose proof (NewPool_max_ge_initial opts) as Hge. fold p in Hge.
  pose proof (NewPool_shape opts) as Hshape. cbv zeta in Hshape. fold p in Hshape.
  replace (0 <? max p) with true in Hshape
    by (symmetry; apply Z.ltb_lt; lia).
  assert (Hn : Z.of_nat n = initial p) by (unfold n; lia).
  assert (Hloop1 :
            borrowLoop v ctx n [] (after (setNew (start p)))
            = Ret (seq 0 n)
                  (mkWorld (initial p) (max p) None [] true
                           (gate (max p) (initial p))
                           (wrap32 (initial p)) n (rev (seq 0 n)))).
  { rewrite Hshape. unfold setNew, after, with_syncPool, mkWorld.
    cbn [pool rt initial max syncPool semMax count
         syncpool.private syncpool.shared].
    fold (mkWorld (initial p) (max p) None [] true (gate (max p) 0) 0 0 []).
    rewrite borrowLoop_creates by (auto; lia).
    rewrite app_nil_r, Hn. cbn [app Nat.add Z.add]. reflexivity. }
  assert (Hloop2 :
            returnLoop (rev (seq 0 n))
                       (mkWorld (initial p) (max p) None [] true
                                (gate (max p) (initial p))
                                (wrap32 (initial p)) n (rev (seq 0 n)))
            = Ret tt (with_initial (initial p) (bootstrapped (max p) n))).
  { rewrite (bootstrap_order n) at 1 by lia.
    cbn [returnLoop]. unfold bind at 1.
    rewrite ReturnItem_held by lia.
    rewrite returnLoop_held
      by (rewrite length_rev, length_seq; lia).
    rewrite length_rev, length_seq, rev_involutive, app_nil_r.
    replace (initial p - 1 - Z.of_nat (n - 1)) with 0 by lia.
    rewrite <- Hn. reflexivity. }
  split; [exact Hloop1|]. split; [exact Hloop2|].
  unfold SetFactory. unfold bind at 1.
  change (setNew (start p)) with (Ret tt (after (setNew (start p)))).
  cbv iota beta.
  replace (initial (pool (after (setNew (start p))))) with (initial p)
    by reflexivity.
  replace (0 <? initial p) with true by (symmetry; apply Z.ltb_lt; lia).
  fold n. unfold bind. rewrite Hloop1. cbv beta iota.
  lazymatch goal with
  | |- match ?t with _ => _ end = _ =>
      replace t with (@Ret unit tt (with_initial (initial p)
                                                 (bootstrapped (max p) n)))
        by (symmetry; exact Hloop2)
  end.
  reflexivity.
Qed.

(** With a release that looks at the context first, a context that is
    already done leaves the gate alone while [Borrow] still hands out
    items; the first return of the bootstrap then releases a permit nobody
    holds. *)
Lemma Borrow_done_context (v : bool) (ctx : Context) (i mx m c cnt : Z)
      (a : nat) (fin : list Item) :
  v && is_done ctx = true ->
  Borrow v ctx (mkWorld i mx None [] true (gate m c) cnt a fin)
  = Ret a (mkWorld i mx None [] true (gate m c)
                   (wrap32 (cnt + 1)) (S a) (a :: fin)).
Proof.
  intros Hctx.
  unfold Borrow, bind, acquire, gate, semaphore.Acquire. simpl.
  rewrite Hctx. reflexivity.
Qed.

Lemma borrowLoop_done_context (v : bool) (ctx : Context) (i mx m c : Z) :
  v && is_done ctx = true ->
  forall (k : nat) (acc : list Item) (cnt : Z) (a : nat) (fin : list Item),
  exists cnt',
    borrowLoop v ctx k acc (mkWorld i mx None [] true (gate m c) cnt a fin)
    = Ret (acc ++ seq a k)
          (mkWorld i mx None [] true (gate m c) cnt' (a + k)%nat
                   (rev (seq a k) ++ fin)).
Proof.
  intros Hctx k. induction k as [|k IH]; intros acc cnt a fin.
  - exists cnt. simpl. unfold ret.
    rewrite app_nil_r, Nat.add_0_r. reflexivity.
  - cbn [borrowLoop]. unfold bind at 1.
    rewrite Borrow_done_context by assumption.
    destruct (IH (acc ++ [a]) (wrap32 (cnt + 1)) (S a) (a :: fin))
      as (cnt' & Hk).
    exists cnt'. cbv beta iota.
    etransitivity; [exact Hk|].
    rewrite <- app_assoc. cbn [seq rev app].
    rewrite <- app_assoc. cbn [app].
    replace (S a + k)%nat with (a + S k)%nat by lia.
    reflexivity.
Qed.

Lemma SetFactory_done_context (v : bool) (ctx : Context) (i m : Z) :
  v && is_done ctx = true ->
  0 < i ->
  returned (SetFactory v ctx (mkWorld i m None [] false (gate m 0) 0 0 []))
  = false.
Proof.
  intros Hctx Hi.
  destruct (borrowLoop_done_context v ctx i m m 0 Hctx (Z.to_nat i) [] 0
                                    0%nat []) as (cnt' & Hloop).
  unfold SetFactory. unfold bind at 1.
  unfold setNew, with_syncPool, mkWorld at 1.
  cbn [pool rt initial max syncPool semMax count
       syncpool.private syncpool.shared].
  replace (0 <? i) with true by (symmetry; apply Z.ltb_lt; lia).
  unfold bind at 1.
  lazymatch goal with
  | |- returned (match ?t with _ => _ end) = _ =>
      replace t with
        (Ret (seq 0 (Z.to_nat i))
             (mkWorld i m None [] true (gate m 0) cnt' (Z.to_nat i)
                      (rev (seq 0 (Z.to_nat i)) ++ [])))
        by (symmetry; exact Hloop)
  end.
  cbv beta iota.
  rewrite (bootstrap_order (Z.to_nat i)) by lia.
  reflexivity.
Qed.

(** ** Size promotion *)

(** C3. When the options leave [max] below [initial], [NewPool] raises [max]
    to [initial] (and sizes the admission gate with it); with size 2 and
    bootstrap 5 the maximum is 5. *)
Theorem NewPool_promotes_size (opts : list PoolOption) :
  max (apply_options opts) < initial (apply_options opts) ->
  max (NewPool opts) = initial (apply_options opts)
  /\ initial (NewPool opts) = initial (apply_options opts)
  /\ semMax (NewPool opts)
     = (if 0 <? initial (apply_options opts)
        then gate (initial (apply_options opts)) 0
        else None).
Proof.
  intros Hlt. unfold NewPool. cbn [max initial semMax].
  apply Z.ltb_lt in Hlt. rewrite Hlt.
  repeat split.
Qed.

Lemma NewPool_promotes_size_2_5 :
  max (apply_options [WithSize 2; WithBootstrapItems 5])
  < initial (apply_options [WithSize 2; WithBootstrapItems 5])
  /\ max (NewPool [WithSize 2; WithBootstrapItems 5]) = 5
  /\ semMax (NewPool [WithSize 2; WithBootstrapItems 5]) = gate 5 0.
Proof.
  assert (H : max (apply_options [WithSize 2; WithBootstrapItems 5])
              < initial (apply_options [WithSize 2; WithBootstrapItems 5]))
    by (vm_compute; reflexivity).
  split; [exact H|].
  destruct (NewPool_promotes_size [WithSize 2; WithBootstrapItems 5] H)
    as (Hmax & _ & Hsem).
  split; [exact Hmax | exact Hsem].
Defined.

(** ** Bootstrap *)




(** C5. On a pool built with bootstrap 5, [SetFactory] returns (under a
    context that lets [Acquire] take a free permit), and whenever it has
    returned [Count] is 5. *)
Theorem Count_after_bootstrap_5 (v : bool) (ctx : Context)
        (opts : list PoolOption) :
  initial (apply_options opts) = 5 ->
  (takes_free_permit v ctx = true ->
   exists w, SetFactory v ctx (start (NewPool opts)) = Ret tt w)
  /\ (forall u w, SetFactory v ctx (start (NewPool opts)) = Ret u w ->
                  Count w = 5).
Proof.
  intros H5.
  assert (Hi : initial (NewPool opts) = 5) by exact H5.
  assert (Hpos : 0 < initial (NewPool opts)) by lia.
  destruct (takes_free_permit v ctx) eqn:Hctx.
  - destruct (SetFactory_fresh v ctx opts Hpos Hctx) as (_ & _ & H3).
    split.
    + intros _. eexists. exact H3.
    + intros u w Hw. rewrite H3 in Hw. inversion Hw; subst w.
      unfold Count, bootstrapped, mkWorld. cbn [pool count].
      rewrite H5. reflexivity.
  - split; [discriminate|].
    intros u w Hw. exfalso.
    unfold takes_free_permit in Hctx. apply negb_false_iff in Hctx.
    pose proof (NewPool_shape opts) as Hshape. cbv zeta in Hshape.
    pose proof (NewPool_max_ge_initial opts) as Hge.
    rewrite Hshape in Hw.
    replace (0 <? max (NewPool opts)) with true in Hw
      by (symmetry; apply Z.ltb_lt; lia).
    pose proof (SetFactory_done_context v ctx (initial (NewPool opts))
                  (max (NewPool opts)) Hctx Hpos) as Hno.
    rewrite Hw in Hno. discriminate.
Qed.

Lemma Count_after_bootstrap_5_of_10 :
  initial (apply_options [WithSize 10; WithBootstrapItems 5]) = 5
  /\ exists w,
      SetFactory false Background
                 (start (NewPool [WithSize 10; WithBootstrapItems 5]))
      = Ret tt w
      /\ Count w = 5.
Proof.
  assert (H : initial (apply_options [WithSize 10; WithBootstrapItems 5]) = 5)
    by reflexivity.
  split; [exact H|].
  destruct (Count_after_bootstrap_5 false Background
              [WithSize 10; WithBootstrapItems 5] H) as (Hret & Hcount).
  destruct (Hret eq_refl) as (w & Hw).
  exists w. split; [exact Hw | exact (Hcount tt w Hw)].
Defined.

(** ** Borrowing what is idle *)

Lemma Borrow_reuses (v : bool) (ctx : Context) (i mx m c cnt : Z)
      (priv : option Item) (sh : list Item) (nw : bool) (a : nat)
      (fin : list Item) :
  takes_free_permit v ctx = true ->
  c < m ->
  Borrow v ctx (mkWorld i mx priv sh nw (gate m c) cnt a fin)
  = match priv, sh with
    | Some x, _ =>
        Ret x (mkWorld i mx None sh nw (gate m (c + 1)) cnt a fin)
    | None, x :: rest =>
        Ret x (mkWorld i mx None rest nw (gate m (c + 1)) cnt a fin)
    | None, [] =>
        Get (mkWorld i mx None [] nw (gate m (c + 1)) cnt a fin)
    end.
Proof.
  intros Hctx Hc.
  unfold takes_free_permit in Hctx. apply negb_true_iff in Hctx.
  unfold Borrow, bind, acquire, gate, semaphore.Acquire. simpl.
  rewrite Hctx.
  replace (1 <=? m - c) with true by (symmetry; apply Z.leb_le; lia).
  destruct priv as [x|]; [reflexivity|].
  destruct sh as [|x rest]; reflexivity.
Qed.

Lemma run_reuses (v : bool) (ctx : Context) (i mx m cnt : Z) (nw : bool)
      (a : nat) (fin : list Item) :
  takes_free_permit v ctx = true ->
  forall (sh held : list Item) (c : Z),
    c + Z.of_nat (length sh) <= m ->
    run v (repeat (CallBorrow ctx) (length sh))
        {| world := mkWorld i mx None sh nw (gate m c) cnt a fin;
           outstanding := held |}
    = Some {| world := mkWorld i mx None [] nw
                               (gate m (c + Z.of_nat (length sh))) cnt a fin;
              outstanding := rev sh ++ held |}.
Proof.
  intros Hctx sh. induction sh as [|x sh IH]; intros held c Hc.
  - simpl. rewrite Z.add_0_r. reflexivity.
  - cbn [length] in Hc. cbn [length repeat run step world outstanding].
    rewrite Borrow_reuses by (auto; lia).
    rewrite IH by lia.
    cbn [rev]. rewrite <- app_assoc. cbn [app].
    replace (c + 1 + Z.of_nat (length sh))
      with (c + Z.of_nat (S (length sh))) by lia.
    reflexivity.
Qed.

(** C10. A pool built with a bootstrap count [c > 0] and no size is bounded:
    [max] is [c] and the gate has [c] permits; once [c] items are borrowed
    the next [Borrow] blocks. *)
Theorem bootstrap_alone_bounds_the_pool (v : bool) (c : Z) :
  0 < c ->
  max (NewPool [WithBootstrapItems c]) = c
  /\ semMax (NewPool [WithBootstrapItems c]) = gate c 0
  /\ exists r,
      run v (CallSetFactory Background
               :: repeat (CallBorrow Background) (Z.to_nat c))
          (fresh [WithBootstrapItems c]) = Some r
      /\ Z.of_nat (length (outstanding r)) = c
      /\ Borrow v Background (world r) = Blocked (world r).
Proof.
  intros Hc.
  assert (Hmax : max (NewPool [WithBootstrapItems c]) = c).
  { unfold NewPool. cbn.
    replace (0 <? c) with true by (symmetry; apply Z.ltb_lt; lia).
    reflexivity. }
  assert (Hinit : initial (NewPool [WithBootstrapItems c]) = c)
    by reflexivity.
  split; [exact Hmax|]. split.
  { unfold NewPool. cbn.
    replace (0 <? c) with true by (symmetry; apply Z.ltb_lt; lia).
    cbn. replace (0 <? c) with true by (symmetry; apply Z.ltb_lt; lia).
    reflexivity. }
  assert (Hbg : takes_free_permit v Background = true).
  { unfold takes_free_permit. cbn. rewrite andb_false_r. reflexivity. }
  destruct (SetFactory_fresh v Background [WithBootstrapItems c])
    as (_ & _ & Hset); [lia | exact Hbg |].
  rewrite Hmax, Hinit in Hset.
  remember (Z.to_nat c) as n eqn:Hn.
  assert (Hn' : Z.of_nat n = c) by lia.
  destruct n as [|n]; [lia|].
  cbn [run step fresh world outstanding repeat].
  rewrite Hset. cbn [run step world outstanding]. unfold bootstrapped.
  rewrite Borrow_reuses by (auto; lia).
  replace (S n - 1)%nat with n by lia.
  pose proof (run_reuses v Background 0 c c (wrap32 (Z.of_nat (S n))) true
                (S n) (rev (seq 0 (S n))) Hbg (seq 0 n) [n] (0 + 1)) as Hrun.
  rewrite length_seq in Hrun.
  eexists. split; [apply Hrun; lia|].
  cbn [world outstanding]. split.
  { rewrite length_app, length_rev, length_seq. cbn [length]. lia. }
  unfold Borrow, bind, acquire, gate, semaphore.Acquire, mkWorld.
  cbn [pool semMax semaphore.size semaphore.cur is_done].
  rewrite andb_false_r.
  replace (1 <=? c - (0 + 1 + Z.of_nat n)) with false
    by (symmetry; apply Z.leb_gt; lia).
  reflexivity.
Qed.

Lemma bootstrap_alone_bounds_the_pool_3 :
  0 < 3
  /\ max (NewPool [WithBootstrapItems 3]) = 3
  /\ semMax (NewPool [WithBootstrapItems 3]) = gate 3 0.
Proof.
  assert (H : 0 < 3) by lia.
  split; [exact H|].
  destruct (bootstrap_alone_bounds_the_pool true 3 H) as (Hm & Hs & _).
  split; [exact Hm | exact Hs].
Defined.

(** ** Returning *)

Lemma ReturnItem_effect (x : Item) (w : World) :
  rt (after (ReturnItem x w)) = rt w
  /\ count (pool (after (ReturnItem x w))) = count (pool w)
  /\ initial (pool (after (ReturnItem x w))) = initial (pool w)
  /\ max (pool (after (ReturnItem x w))) = max (pool w)
  /\ syncPool (pool (after (ReturnItem x w)))
     = syncpool.Put x (syncPool (pool w))
  /\ semMax (pool (after (ReturnItem x w)))
     = match semMax (pool w) with
       | Some s => Some {| semaphore.size := semaphore.size s;
                           semaphore.cur := semaphore.cur s - 1 |}
       | None => None
       end
  /\ blocked (ReturnItem x w) = false.
Proof.
  destruct w as [[i mx sp sem cnt] r].
  unfold ReturnItem, bind, release, semaphore.Release. cbn.
  destruct sem as [s|]; cbn.
  - destruct (semaphore.cur s - 1 <? 0); cbn; repeat split.
  - repeat split.
Qed.

(** C9. [ReturnItem] does not touch the counter: whatever the item and the
    state, and however the call ends, [Count] reads the same before and
    after; the call never blocks. *)
Theorem ReturnItem_keeps_Count (x : Item) (w : World) :
  Count (after (ReturnItem x w)) = Count w
  /\ blocked (ReturnItem x w) = false.
Proof.
  destruct (ReturnItem_effect x w) as (_ & Hc & _ & _ & _ & _ & Hb).
  split; [exact Hc | exact Hb].
Qed.

(** C6 as the code has it.  On a bounded pool [ReturnItem] checks nothing
    itself: it stores the item and lowers the number of permits held by one.
    While a permit is held the call returns; when none is held the
    semaphore panics with "released more than held", and the count of held
    permits is left below zero. *)
Theorem ReturnItem_over_release (x : Item) (w : World)
        (s : semaphore.Weighted) :
  semMax (pool w) = Some s ->
  syncPool (pool (after (ReturnItem x w)))
  = syncpool.Put x (syncPool (pool w))
  /\ semMax (pool (after (ReturnItem x w)))
     = gate (semaphore.size s) (semaphore.cur s - 1)
  /\ ReturnItem x w
     = (if 1 <=? semaphore.cur s
        then Ret tt (after (ReturnItem x w))
        else Panic ReleasedMoreThanHeld (after (ReturnItem x w))).
Proof.
  intros Hs.
  destruct (ReturnItem_effect x w) as (_ & _ & _ & _ & Hp & Hsem & _).
  rewrite Hs in Hsem.
  split; [exact Hp|]. split; [exact Hsem|].
  destruct w as [[i mx sp sem cnt] r]. cbn in Hs. subst sem.
  unfold ReturnItem, bind, release, semaphore.Release.
  cbn -[Z.sub Z.ltb Z.leb syncpool.Put].
  destruct (1 <=? semaphore.cur s) eqn:E.
  - apply Z.leb_le in E.
    replace (semaphore.cur s - 1 <? 0) with false
      by (symmetry; apply Z.ltb_ge; lia).
    reflexivity.
  - apply Z.leb_gt in E.
    replace (semaphore.cur s - 1 <? 0) with true
      by (symmetry; apply Z.ltb_lt; lia).
    reflexivity.
Qed.

Lemma ReturnItem_over_release_fresh :
  semMax (pool (start (NewPool [WithSize 2]))) = Some (semaphore.NewWeighted 2)
  /\ exists w',
      ReturnItem 7%nat (start (NewPool [WithSize 2]))
      = Panic ReleasedMoreThanHeld w'
      /\ semMax (pool w') = gate 2 (-1).
Proof.
  assert (H : semMax (pool (start (NewPool [WithSize 2])))
              = Some (semaphore.NewWeighted 2)) by reflexivity.
  split; [exact H|].
  destruct (ReturnItem_over_release 7%nat (start (NewPool [WithSize 2]))
              (semaphore.NewWeighted 2) H) as (_ & Hsem & Hres).
  eexists. split; [exact Hres | exact Hsem].
Defined.

(** C6 as stated fails: on a pool of size 2 whose factory is set and from
    which nothing is borrowed, [ReturnItem] panics. *)
Lemma ReturnItem_unmatched_panics :
  exists r w',
    run true [CallSetFactory Background] (fresh [WithSize 2]) = Some r
    /\ ReturnItem 7%nat (world r) = Panic ReleasedMoreThanHeld w'.
Proof.
  eexists. eexists. split; reflexivity.
Qed.

(** ** Reuse *)

(** C7 as the code has it.  An item returned while the cache's private slot
    is free (so whenever the cache is empty) is the item the next [Borrow]
    yields. *)
Theorem Borrow_after_ReturnItem (v : bool) (ctx : Context) (x : Item)
        (w w1 : World) :
  syncpool.private (syncPool (pool w)) = None ->
  (forall s, semMax (pool w) = Some s ->
             semaphore.cur s <= semaphore.size s) ->
  ReturnItem x w = Ret tt w1 ->
  exists w2, Borrow v ctx w1 = Ret x w2.
Proof.
  intros Hpriv Hsem Hret.
  destruct w as [[i mx [priv sh nw] sem cnt] r]. cbn in Hpriv. subst priv.
  unfold ReturnItem, bind, release, semaphore.Release in Hret.
  cbn [pool semMax syncPool with_syncPool syncpool.Put syncpool.private]
    in Hret.
  destruct sem as [s|].
  - specialize (Hsem s eq_refl).
    cbn [semaphore.cur semaphore.size] in Hret.
    destruct (semaphore.cur s - 1 <? 0) eqn:E; [discriminate|].
    apply Z.ltb_ge in E.
    inversion Hret; subst w1; clear Hret.
    unfold Borrow, bind, acquire, semaphore.Acquire.
    cbn [pool semMax with_semMax semaphore.cur semaphore.size].
    destruct (v && is_done ctx).
    + eexists. reflexivity.
    + replace (1 <=? semaphore.size s - (semaphore.cur s - 1)) with true
        by (symmetry; apply Z.leb_le; lia).
      eexists. reflexivity.
  - inversion Hret; subst w1; clear Hret.
    eexists. reflexivity.
Qed.

Lemma Borrow_after_ReturnItem_empty_cache :
  exists w w1 w2,
    run false [CallSetFactory Background; CallBorrow Background]
        (fresh [WithSize 5])
    = Some {| world := w; outstanding := [0%nat] |}
    /\ ReturnItem 0%nat w = Ret tt w1
    /\ Borrow false Background w1 = Ret 0%nat w2.
Proof.
  eexists. eexists.
  assert (Hrun : run false [CallSetFactory Background; CallBorrow Background]
                     (fresh [WithSize 5])
                 = Some {| world := mkWorld 0 5 None [] true (gate 5 1) 1 1
                                            [0%nat];
                           outstanding := [0%nat] |}) by reflexivity.
  assert (Hret : ReturnItem 0%nat
                   (mkWorld 0 5 None [] true (gate 5 1) 1 1 [0%nat])
                 = Ret tt (mkWorld 0 5 (Some 0%nat) [] true (gate 5 0) 1 1
                                   [0%nat])) by reflexivity.
  assert (Hgate : forall s,
             semMax (pool (mkWorld 0 5 None [] true (gate 5 1) 1 1 [0%nat]))
             = Some s ->
             semaphore.cur s <= semaphore.size s).
  { intros s Hs. inversion Hs. simpl. lia. }
  destruct (Borrow_after_ReturnItem false Background 0%nat
              (mkWorld 0 5 None [] true (gate 5 1) 1 1 [0%nat])
              (mkWorld 0 5 (Some 0%nat) [] true (gate 5 0) 1 1 [0%nat])
              eq_refl Hgate Hret) as (w2 & Hw2).
  exists w2. split; [exact Hrun|]. split; [exact Hret | exact Hw2].
Defined.

(** C7 as stated fails: with items 0 and 1 borrowed and 0 returned, item 1
    is returned and borrowed again at once, and the [Borrow] yields item 0,
    which sits in the private slot. *)
Lemma Borrow_after_ReturnItem_other_item :
  either_release
    (fun v =>
       exists r w1 y w2,
         run v [CallSetFactory Background; CallBorrow Background;
                CallBorrow Background; CallReturnItem 0%nat]
             (fresh [WithSize 5]) = Some r
         /\ ReturnItem 1%nat (world r) = Ret tt w1
         /\ Borrow v Background w1 = Ret y w2
         /\ y <> 1%nat).
Proof.
  split; (do 4 eexists; split; [reflexivity|]; split; [reflexivity|];
          split; [reflexivity|]; discriminate).
Qed.

(** ** Borrowing under a context that is done *)

(** C2 as the code has it.  On a bounded pool without a free permit, a
    [Borrow] whose context is cancelled or expires does not block and
    leaves the gate as it was: no permit is consumed. *)
Theorem Borrow_done_takes_no_permit (v : bool) (ctx : Context) (w : World)
        (s : semaphore.Weighted) :
  semMax (pool w) = Some s ->
  semaphore.size s - semaphore.cur s < 1 ->
  ctx <> Background ->
  blocked (Borrow v ctx w) = false
  /\ semMax (pool (after (Borrow v ctx w))) = Some s.
Proof.
  intros Hs Hfull Hctx.
  destruct w as [[i mx [priv sh nw] sem cnt] r]. cbn in Hs. subst sem.
  unfold Borrow, bind, acquire, semaphore.Acquire.
  cbn [pool semMax].
  replace (1 <=? semaphore.size s - semaphore.cur s) with false
    by (symmetry; apply Z.leb_gt; lia).
  assert (Hacq : (if v && is_done ctx then semaphore.CtxErr s
                  else match ctx with
                       | Background => semaphore.Waits
                       | _ => semaphore.CtxErr s
                       end) = semaphore.CtxErr s).
  { destruct ctx; [contradiction| |]; destruct v; reflexivity. }
  rewrite Hacq.
  unfold Get. cbn [pool syncPool syncpool.take syncpool.private
                   syncpool.shared syncpool.New].
  destruct priv as [x|]; [split; reflexivity|].
  destruct sh as [|x rest]; [|split; reflexivity].
  destruct nw; split; reflexivity.
Qed.

Lemma Borrow_done_takes_no_permit_full :
  exists w,
    run true [CallSetFactory Background; CallBorrow Background]
        (fresh [WithSize 1])
    = Some {| world := w; outstanding := [0%nat] |}
    /\ blocked (Borrow true Cancelled w) = false
    /\ semMax (pool (after (Borrow true Cancelled w))) = gate 1 1.
Proof.
  exists (mkWorld 0 1 None [] true (gate 1 1) 1 1 [0%nat]).
  split; [reflexivity|].
  apply (Borrow_done_takes_no_permit true Cancelled
           (mkWorld 0 1 None [] true (gate 1 1) 1 1 [0%nat])
           {| semaphore.size := 1; semaphore.cur := 1 |}).
  - reflexivity.
  - simpl. lia.
  - discriminate.
Defined.

(** C2 as stated fails: on a pool of size 1 whose only permit is taken, a
    [Borrow] with a cancelled context returns an item, and no error. *)
Lemma Borrow_done_yields_item :
  either_release
    (fun v =>
       exists r x w',
         run v [CallSetFactory Background; CallBorrow Background]
             (fresh [WithSize 1]) = Some r
         /\ semMax (pool (world r)) = gate 1 1
         /\ Borrow v Cancelled (world r) = Ret x w').
Proof.
  split; (do 3 eexists; split; [reflexivity|]; split; reflexivity).
Qed.

(** ** The bound on outstanding items *)

(** C1, at the input where the code breaks it.  On a pool of size 1, one
    [Borrow] takes the permit and a second one with a cancelled context
    comes back with an item all the same: two items are outstanding. *)
Theorem cancelled_Borrow_exceeds_max :
  either_release
    (fun v =>
       exists r,
         run v [CallSetFactory Background; CallBorrow Background;
                CallBorrow Cancelled]
             (fresh [WithSize 1]) = Some r
         /\ max (pool (world r)) = 1
         /\ outstanding r = [1%nat; 0%nat]
         /\ Z.of_nat (length (outstanding r)) > max (pool (world r))).
Proof.
  split; (eexists; split; [reflexivity|]; split; [reflexivity|];
          split; [reflexivity|]; reflexivity).
Qed.

(** ** The counter *)

Lemma keeps_counted_bind {A B} (m : M A) (k : A -> M B) :
  keeps_counted m -> (forall a, keeps_counted (k a)) ->
  keeps_counted (bind m k).
Proof.
  intros Hm Hk w Hw. unfold bind.
  specialize (Hm w Hw).
  destruct (m w) as [a w'|w'|msg w']; cbn [after] in *.
  - apply Hk, Hm.
  - exact Hm.
  - exact Hm.
Qed.

Lemma keeps_counted_same {A} (m : M A) :
  (forall w, count (pool (after (m w))) = count (pool w)
             /\ rt (after (m w)) = rt w) ->
  keeps_counted m.
Proof.
  intros H w Hw. destruct (H w) as (Hc & Hr).
  unfold counted in *. rewrite Hc, Hr. exact Hw.
Qed.

Lemma newItem_counted : keeps_counted newItem.
Proof.
  intros w Hw. unfold counted in *. cbn.
  rewrite Hw, wrap32_add_l. f_equal. lia.
Qed.

Lemma Borrow_counted (v : bool) (ctx : Context) :
  keeps_counted (Borrow v ctx).
Proof.
  unfold Borrow. apply keeps_counted_bind.
  - apply keeps_counted_same. intros w. unfold acquire.
    destruct (semMax (pool w)) as [s|]; [|split; reflexivity].
    destruct (semaphore.Acquire v ctx 1 s); split; reflexivity.
  - intros _ w Hw. unfold Get.
    destruct (syncpool.take (syncPool (pool w))) as [[x|] sp].
    + exact Hw.
    + destruct (syncpool.New (syncPool (pool w))).
      * apply newItem_counted, Hw.
      * exact Hw.
Qed.

Lemma ReturnItem_counted (x : Item) : keeps_counted (ReturnItem x).
Proof.
  apply keeps_counted_same. intros w.
  destruct (ReturnItem_effect x w) as (Hr & Hc & _). split; assumption.
Qed.

Lemma borrowLoop_counted (v : bool) (ctx : Context) (k : nat) :
  forall acc, keeps_counted (borrowLoop v ctx k acc).
Proof.
  induction k as [|k IH]; intros acc.
  - intros w Hw. exact Hw.
  - cbn [borrowLoop]. apply keeps_counted_bind.
    + apply Borrow_counted.
    + intros x. apply IH.
Qed.

Lemma returnLoop_counted (l : list Item) : keeps_counted (returnLoop l).
Proof.
  induction l as [|x l IH].
  - intros w Hw. exact Hw.
  - cbn [returnLoop]. apply keeps_counted_bind.
    + apply ReturnItem_counted.
    + intros _. exact IH.
Qed.

Lemma SetFactory_counted (v : bool) (ctx : Context) :
  keeps_counted (SetFactory v ctx).
Proof.
  unfold SetFactory. apply keeps_counted_bind.
  - apply keeps_counted_same. intros w. split; reflexivity.
  - intros _ w Hw.
    destruct (0 <? initial (pool w)); [|exact Hw].
    refine (keeps_counted_bind
              (borrowLoop v ctx (Z.to_nat (initial (pool w))) []) _ _ _
              w Hw).
    + apply borrowLoop_counted.
    + intros items. apply keeps_counted_bind.
      * apply returnLoop_counted.
      * intros _. apply keeps_counted_same. intros w'. split; reflexivity.
Qed.

Lemma remove1_length (x : Item) (l : list Item) :
  existsb (Nat.eqb x) l = true ->
  S (length (remove1 x l)) = length l.
Proof.
  induction l as [|y l IH]; cbn [existsb remove1 length].
  - discriminate.
  - destruct (Nat.eqb x y); cbn [orb length].
    + reflexivity.
    + intros H. rewrite IH by exact H. reflexivity.
Qed.

Lemma finalize_counted (x : Item) (w w' : World) :
  finalize x w = Some w' -> counted w -> counted w'.
Proof.
  unfold finalize, counted.
  destruct (existsb (Nat.eqb x) (finalizers (rt w))) eqn:E; [|discriminate].
  intros H Hw. inversion H; subst w'; clear H. cbn.
  rewrite Hw. apply remove1_length in E.
  replace (wrap32 (Z.of_nat (length (finalizers (rt w)))) - 1)
    with (wrap32 (Z.of_nat (length (finalizers (rt w)))) + -1) by lia.
  rewrite wrap32_add_l. f_equal. lia.
Qed.

Lemma step_counted (v : bool) (c : Call) (r r' : Run) :
  step v c r = Some r' -> counted (world r) -> counted (world r').
Proof.
  intros Hstep Hr. destruct c as [ctx|ctx|x| |x]; cbn [step] in Hstep.
  - pose proof (SetFactory_counted v ctx (world r) Hr) as H.
    destruct (SetFactory v ctx (world r)); inversion Hstep; subst r'.
    exact H.
  - pose proof (Borrow_counted v ctx (world r) Hr) as H.
    destruct (Borrow v ctx (world r)); inversion Hstep; subst r'.
    exact H.
  - pose proof (ReturnItem_counted x (world r) Hr) as H.
    destruct (ReturnItem x (world r)); inversion Hstep; subst r'.
    exact H.
  - inversion Hstep; subst r'. exact Hr.
  - destruct (finalize x (world r)) as [w'|] eqn:E; inversion Hstep; subst r'.
    exact (finalize_counted x (world r) w' E Hr).
Qed.

Lemma run_counted (v : bool) (calls : list Call) :
  forall r r', run v calls r = Some r' ->
               counted (world r) -> counted (world r').
Proof.
  induction calls as [|c calls IH]; intros r r' Hrun Hr; cbn [run] in Hrun.
  - inversion Hrun; subst r'. exact Hr.
  - destruct (step v c r) as [r1|] eqn:E; [|discriminate].
    apply (IH r1 r' Hrun). exact (step_counted v c r r1 E Hr).
Qed.

Lemma fresh_counted (opts : list PoolOption) : counted (world (fresh opts)).
Proof.
  unfold fresh. cbn [world]. rewrite NewPool_shape. reflexivity.
Qed.

(** C8 as the code has it.  In every state a run of calls and finalizers
    reaches, [Count] is the number of items whose finalizer has not run,
    taken as an int32.  While that number is below 2^31 the count is not
    negative, and while it is below 2^31 - 1 a factory call raises the
    count by one. *)
Theorem Count_not_negative (v : bool) (opts : list PoolOption)
        (calls : list Call) (r : Run) :
  run v calls (fresh opts) = Some r ->
  Z.of_nat (length (finalizers (rt (world r)))) < 2 ^ 31 ->
  Count (world r) = Z.of_nat (length (finalizers (rt (world r))))
  /\ 0 <= Count (world r)
  /\ returned (newItem (world r)) = true
  /\ (Z.of_nat (length (finalizers (rt (world r)))) < 2 ^ 31 - 1 ->
      Count (after (newItem (world r))) = Count (world r) + 1).
Proof.
  intros Hrun Hlive.
  pose proof (run_counted v calls _ _ Hrun (fresh_counted opts)) as Hc.
  unfold counted in Hc. unfold Count.
  rewrite wrap32_small in Hc by lia.
  split; [exact Hc|]. split; [lia|]. split; [reflexivity|].
  intros Hroom. cbn [newItem after pool count].
  rewrite Hc. apply wrap32_small. lia.
Qed.

Lemma Count_not_negative_two_borrowed :
  exists r,
    run true [CallSetFactory Background; CallBorrow Background;
              CallBorrow Background; CallReturnItem 0%nat]
        (fresh [WithSize 5]) = Some r
    /\ Count (world r) = 2
    /\ 0 <= Count (world r).
Proof.
  eexists. 
  assert (Hrun : run true [CallSetFactory Background; CallBorrow Background;
                           CallBorrow Background; CallReturnItem 0%nat]
                     (fresh [WithSize 5])
                 = Some {| world := mkWorld 0 5 (Some 0%nat) [] true
                                            (gate 5 1) 2 2 [1%nat; 0%nat];
                           outstanding := [1%nat] |}) by reflexivity.
  split; [exact Hrun|].
  destruct (Count_not_negative true [WithSize 5] _ _ Hrun) as (H1 & H2 & _).
  - simpl. lia.
  - split; [exact H1 | exact H2].
Defined.

Lemma run_creates_unbounded (v : bool) (ctx : Context) (i mx : Z) :
  forall (k : nat) (held : list Item) (cnt : Z) (a : nat) (fin : list Item),
    wrap32 cnt = cnt ->
    run v (repeat (CallBorrow ctx) k)
        {| world := mkWorld i mx None [] true None cnt a fin;
           outstanding := held |}
    = Some {| world := mkWorld i mx None [] true None
                               (wrap32 (cnt + Z.of_nat k)) (a + k)%nat
                               (rev (seq a k) ++ fin);
              outstanding := rev (seq a k) ++ held |}.
Proof.
  induction k as [|k IH]; intros held cnt a fin Hcnt.
  - cbn [repeat run seq rev app]. rewrite Z.add_0_r, Nat.add_0_r, Hcnt.
    reflexivity.
  - cbn [repeat run step world outstanding].
    change (Borrow v ctx (mkWorld i mx None [] true None cnt a fin))
      with (Ret a (mkWorld i mx None [] true None (wrap32 (cnt + 1))
                           (S a) (a :: fin))).
    cbv beta iota.
    rewrite IH by (apply wrap32_small, wrap32_range).
    rewrite wrap32_add_l. cbn [seq rev].
    rewrite <- !app_assoc. cbn [app].
    replace (cnt + 1 + Z.of_nat k) with (cnt + Z.of_nat (S k)) by lia.
    replace (S a + k)%nat with (a + S k)%nat by lia.
    reflexivity.
Qed.

(** C8 as stated fails: on an unbounded pool, 2^31 items borrowed and kept
    make the int32 counter wrap, and [Count] is negative. *)
Lemma Count_negative :
  either_release
    (fun v =>
       exists r,
         run v (CallSetFactory Background
                  :: repeat (CallBorrow Background) (Z.to_nat (2 ^ 31)))
             (fresh []) = Some r
         /\ Count (world r) < 0).
Proof.
  assert (H : forall v n,
             exists r,
               run v (CallSetFactory Background
                        :: repeat (CallBorrow Background) n)
                   (fresh []) = Some r
               /\ Count (world r) = wrap32 (Z.of_nat n)).
  { intros v n.
    change (run v (CallSetFactory Background
                     :: repeat (CallBorrow Background) n) (fresh []))
      with (run v (repeat (CallBorrow Background) n)
                {| world := mkWorld 0 0 None [] true None 0 0 [];
                   outstanding := [] |}).
    rewrite run_creates_unbounded by reflexivity.
    eexists. split; [reflexivity|]. reflexivity. }
  assert (Hwrap : wrap32 (Z.of_nat (Z.to_nat (2 ^ 31))) < 0).
  { rewrite Z2Nat.id by lia. vm_compute. reflexivity. }
  split.
  - destruct (H true (Z.to_nat (2 ^ 31))) as (r & Hr & Hc).
    exists r. split; [exact Hr|]. rewrite Hc. exact Hwrap.
  - destruct (H false (Z.to_nat (2 ^ 31))) as (r & Hr & Hc).
    exists r. split; [exact Hr|]. rewrite Hc. exact Hwrap.
Qed.

(** ** Where the bound does hold *)

Lemma Borrow_Background_frame (v : bool) (w w' : World) (x : Item)
      (m c : Z) :
  semMax (pool w) = gate m c ->
  Borrow v Background w = Ret x w' ->
  c + 1 <= m
  /\ semMax (pool w') = gate m (c + 1)
  /\ max (pool w') = max (pool w)
  /\ initial (pool w') = initial (pool w).
Proof.
  intros Hs.
  destruct w as [[i mx [priv sh nw] sem cnt] r]. cbn in Hs. subst sem.
  unfold Borrow, bind, acquire, gate, semaphore.Acquire.
  cbn [pool semMax is_done semaphore.size semaphore.cur].
  rewrite andb_false_r.
  destruct (1 <=? m - c) eqn:E; [|discriminate].
  apply Z.leb_le in E.
  unfold Get. cbn [pool syncPool with_semMax syncpool.take
                   syncpool.private syncpool.shared syncpool.New].
  destruct priv as [y|].
  - intros H; inversion H; subst; cbn. repeat split. lia.
  - destruct sh as [|y rest].
    + destruct nw; [|discriminate].
      intros H; inversion H; subst; cbn. repeat split. lia.
    + intros H; inversion H; subst; cbn. repeat split. lia.
Qed.

Lemma Borrow_before_SetFactory (v : bool) (ctx : Context)
      (opts : list PoolOption) :
  returned (Borrow v ctx (start (NewPool opts))) = false.
Proof.
  rewrite NewPool_shape.
  unfold Borrow, bind, acquire, mkWorld. cbn [pool semMax].
  destruct (0 <? max (NewPool opts)); [|reflexivity].
  unfold gate.
  destruct (semaphore.Acquire v ctx 1
              {| semaphore.size := max (NewPool opts);
                 semaphore.cur := 0 |}); reflexivity.
Qed.

Lemma step_patient (v : bool) (opts : list PoolOption) (c : Call)
      (r r' : Run) :
  0 < max (NewPool opts) ->
  gated (max (NewPool opts)) r -> before_bootstrap opts r ->
  patient_call c (outstanding r) = true ->
  step v c r = Some r' ->
  gated (max (NewPool opts)) r' /\ before_bootstrap opts r'.
Proof.
  intros Hm (Hmax & Hsem & Hle) Hfresh Hpat Hstep.
  destruct c as [ctx|ctx|x| |x]; cbn [step] in Hstep.
  - (* SetFactory *)
    destruct ctx; try discriminate.
    destruct (0 <? initial (pool (world r))) eqn:Hi.
    + apply Z.ltb_lt in Hi. pose proof (Hfresh Hi) as Er. subst r.
      assert (Hi' : 0 < initial (NewPool opts)) by exact Hi.
      destruct (SetFactory_fresh v Background opts Hi') as (_ & _ & Hset).
      { unfold takes_free_permit. cbn. rewrite andb_false_r. reflexivity. }
      cbn [fresh world outstanding] in Hstep. rewrite Hset in Hstep.
      inversion Hstep; subst r'; clear Hstep.
      split.
      * split; [reflexivity|]. split; [reflexivity|].
        cbn [outstanding length Z.of_nat]. lia.
      * intros H. unfold bootstrapped, mkWorld in H.
        cbn [world pool initial] in H. lia.
    + unfold SetFactory, bind, setNew in Hstep.
      cbn [with_syncPool pool initial] in Hstep. rewrite Hi in Hstep.
      inversion Hstep; subst r'; clear Hstep.
      split.
      * repeat split; cbn; assumption.
      * intros H. cbn in H. apply Z.ltb_ge in Hi. lia.
  - (* Borrow *)
    destruct ctx; try discriminate.
    destruct (Borrow v Background (world r)) as [y w'| |] eqn:Hb;
      try discriminate.
    inversion Hstep; subst r'; clear Hstep.
    destruct (Borrow_Background_frame v _ _ _ _ _ Hsem Hb)
      as (Hroom & Hsem' & Hmax' & Hinit').
    split.
    + repeat split; cbn [world outstanding length].
      * rewrite Hmax'. exact Hmax.
      * rewrite Hsem'. f_equal. f_equal. lia.
      * lia.
    + intros H. cbn [world] in H. rewrite Hinit' in H.
      exfalso. rewrite (Hfresh H) in Hb. cbn [fresh world] in Hb.
      pose proof (Borrow_before_SetFactory v Background opts) as Hno.
      rewrite Hb in Hno. discriminate.
  - (* ReturnItem *)
    cbn [patient_call] in Hpat.
    pose proof (remove1_length x (outstanding r) Hpat) as Hlen.
    destruct (ReturnItem_effect x (world r))
      as (_ & _ & Hinit' & Hmax' & _ & Hsem' & _).
    destruct (ReturnItem x (world r)) as [u w'| |] eqn:Hr; try discriminate.
    inversion Hstep; subst r'; clear Hstep. cbn [after] in *.
    rewrite Hsem in Hsem'. cbn in Hsem'.
    split.
    + repeat split; cbn [world outstanding].
      * rewrite Hmax'. exact Hmax.
      * rewrite Hsem'. unfold gate. f_equal. f_equal. lia.
      * lia.
    + intros H. cbn [world] in H. rewrite Hinit' in H.
      rewrite (Hfresh H) in Hpat. discriminate.
  - (* Count *)
    inversion Hstep; subst r'. split; [repeat split|]; assumption.
  - (* a finalizer *)
    destruct (finalize x (world r)) as [w'|] eqn:Hf; [|discriminate].
    inversion Hstep; subst r'; clear Hstep.
    unfold finalize in Hf.
    destruct (existsb (Nat.eqb x) (finalizers (rt (world r)))) eqn:E;
      [|discriminate].
    inversion Hf; subst w'; clear Hf.
    split.
    + repeat split; cbn; assumption.
    + intros H. cbn in H. rewrite (Hfresh H) in E. discriminate.
Qed.

Lemma run_patient (v : bool) (opts : list PoolOption) :
  0 < max (NewPool opts) ->
  forall (calls : list Call) (r r' : Run),
    gated (max (NewPool opts)) r -> before_bootstrap opts r ->
    patient v calls r = true ->
    run v calls r = Some r' ->
    gated (max (NewPool opts)) r'.
Proof.
  intros Hm calls. induction calls as [|c calls IH];
    intros r r' Hg Hb Hpat Hrun; cbn [run patient] in *.
  - inversion Hrun; subst r'. exact Hg.
  - apply andb_true_iff in Hpat. destruct Hpat as (Hc & Hrest).
    destruct (step v c r) as [r1|] eqn:E; [|discriminate].
    destruct (step_patient v opts c r r1 Hm Hg Hb Hc E) as (Hg1 & Hb1).
    exact (IH r1 r' Hg1 Hb1 Hrest Hrun).
Qed.

(** X11. On a bounded pool, runs whose contexts are never done and whose
    returns give back outstanding items keep the outstanding items within
    [max]. *)
Theorem outstanding_bounded_when_patient (v : bool)
        (opts : list PoolOption) (calls : list Call) (r : Run) :
  0 < max (NewPool opts) ->
  patient v calls (fresh opts) = true ->
  run v calls (fresh opts) = Some r ->
  Z.of_nat (length (outstanding r)) <= max (pool (world r))
  /\ max (pool (world r)) = max (NewPool opts).
Proof.
  intros Hm Hpat Hrun.
  assert (Hg : gated (max (NewPool opts)) (fresh opts)).
  { unfold gated, fresh. cbn [world outstanding length Z.of_nat].
    rewrite NewPool_shape. unfold mkWorld. cbn [pool max semMax].
    replace (0 <? max (NewPool opts)) with true
      by (symmetry; apply Z.ltb_lt; lia).
    split; [reflexivity|]. split; [reflexivity|]. lia. }
  destruct (run_patient v opts Hm calls (fresh opts) r Hg
              (fun _ => eq_refl) Hpat Hrun) as (Hmax & _ & Hle).
  split; [rewrite Hmax; exact Hle | exact Hmax].
Qed.

(** ** Options *)

Lemma apply_options_last (opts : list PoolOption) :
  forall p : Pool,
    let q := fold_left (fun p opt => apply_option opt p) opts p in
    initial q = last_bootstrap opts (initial p)
    /\ max q = last_size opts (max p).
Proof.
  induction opts as [|opt opts IH]; intros p; cbn [fold_left].
  - split; reflexivity.
  - destruct (IH (apply_option opt p)) as (Hi & Hm). cbv zeta.
    rewrite Hi, Hm. destruct opt; split; reflexivity.
Qed.

(** X1. The options are applied in order and the last of each kind wins:
    the pool's bootstrap count is the last one given (0 if none), and its
    maximum is the larger of the last size given (0 if none) and that
    bootstrap count. *)
Theorem NewPool_last_option_wins (opts : list PoolOption) :
  initial (NewPool opts) = last_bootstrap opts 0
  /\ max (NewPool opts)
     = Z.max (last_size opts 0) (last_bootstrap opts 0).
Proof.
  destruct (apply_options_last opts zero_pool) as (Hi & Hm).
  cbv zeta in Hi, Hm. fold (apply_options opts) in Hi, Hm.
  cbn [initial max zero_pool] in Hi, Hm.
  unfold NewPool. cbn [initial max]. rewrite Hi, Hm.
  split; [reflexivity|].
  destruct (last_size opts 0 <? last_bootstrap opts 0) eqn:E.
  - apply Z.ltb_lt in E. lia.
  - apply Z.ltb_ge in E. lia.
Qed.

(** X2. A pool is unbounded exactly when neither the size nor the bootstrap
    count it was given is positive; otherwise its gate has [max] permits,
    none of them taken.  The bootstrap count never exceeds [max]. *)
Theorem NewPool_unbounded_iff (opts : list PoolOption) :
  (semMax (NewPool opts) = None
   <-> last_size opts 0 <= 0 /\ last_bootstrap opts 0 <= 0)
  /\ (semMax (NewPool opts) = None
      \/ semMax (NewPool opts)
         = Some (semaphore.NewWeighted (max (NewPool opts))))
  /\ initial (NewPool opts) <= max (NewPool opts).
Proof.
  destruct (apply_options_last opts zero_pool) as (Hi & Hm).
  cbv zeta in Hi, Hm. fold (apply_options opts) in Hi, Hm.
  cbn [initial max zero_pool] in Hi, Hm.
  unfold NewPool. cbn [initial max semMax]. rewrite Hi, Hm.
  destruct (last_size opts 0 <? last_bootstrap opts 0) eqn:E;
    [apply Z.ltb_lt in E | apply Z.ltb_ge in E].
  - destruct (0 <? last_bootstrap opts 0) eqn:F;
      [apply Z.ltb_lt in F | apply Z.ltb_ge in F].
    + split; [split; [discriminate | lia]|]. split; [right; reflexivity|lia].
    + split; [split; [lia | reflexivity]|]. split; [left; reflexivity|lia].
  - destruct (0 <? last_size opts 0) eqn:F;
      [apply Z.ltb_lt in F | apply Z.ltb_ge in F].
    + split; [split; [discriminate | lia]|]. split; [right; reflexivity|lia].
    + split; [split; [lia | reflexivity]|]. split; [left; reflexivity|lia].
Qed.

(** ** Borrowing: panic, block, reuse, create *)

(** X3. [Borrow] on a pool whose factory was never set panics on the nil
    interface.  On a bounded pool the permit it took on the way is not
    given back. *)
Theorem Borrow_without_factory (v : bool) (ctx : Context)
        (opts : list PoolOption) :
  exists w',
    Borrow v ctx (start (NewPool opts)) = Panic NilInterface w'
    /\ semMax (pool w')
       = (if 0 <? max (NewPool opts)
          then gate (max (NewPool opts))
                    (if takes_free_permit v ctx then 1 else 0)
          else None)
    /\ syncpool.idle (syncPool (pool w')) = [].
Proof.
  rewrite NewPool_shape.
  unfold Borrow, bind, acquire, mkWorld, takes_free_permit.
  cbn [pool semMax].
  destruct (0 <? max (NewPool opts)) eqn:E.
  - apply Z.ltb_lt in E.
    unfold gate, semaphore.Acquire. cbn [semaphore.size semaphore.cur].
    destruct (v && is_done ctx); cbn [negb].
    + eexists. split; [reflexivity|]. split; reflexivity.
    + replace (1 <=? max (NewPool opts) - 0) with true
        by (symmetry; apply Z.leb_le; lia).
      eexists. split; [reflexivity|]. split; reflexivity.
  - eexists. split; [reflexivity|]. split; reflexivity.
Qed.

(** X4. With no permit free, a [Borrow] whose context is never done blocks,
    and the pool is as it was. *)
Theorem Borrow_blocks_when_saturated (v : bool) (w : World)
        (s : semaphore.Weighted) :
  semMax (pool w) = Some s ->
  semaphore.size s - semaphore.cur s < 1 ->
  Borrow v Background w = Blocked w.
Proof.
  intros Hs Hfull.
  unfold Borrow, bind, acquire, semaphore.Acquire. rewrite Hs.
  cbn [is_done]. rewrite andb_false_r.
  replace (1 <=? semaphore.size s - semaphore.cur s) with false
    by (symmetry; apply Z.leb_gt; lia).
  reflexivity.
Qed.

Lemma Borrow_blocks_when_saturated_2_of_2 :
  exists w,
    run true [CallSetFactory Background; CallBorrow Background;
              CallBorrow Background] (fresh [WithSize 2])
    = Some {| world := w; outstanding := [1%nat; 0%nat] |}
    /\ Borrow true Background w = Blocked w.
Proof.
  exists (mkWorld 0 2 None [] true (gate 2 2) 2 2 [1%nat; 0%nat]).
  split; [reflexivity|].
  apply (Borrow_blocks_when_saturated true
           (mkWorld 0 2 None [] true (gate 2 2) 2 2 [1%nat; 0%nat])
           {| semaphore.size := 2; semaphore.cur := 2 |}).
  - reflexivity.
  - simpl. lia.
Defined.

(** X5. On a bounded pool whose factory is set and whose every permit is
    taken, one [ReturnItem] is enough for a [Borrow] with a context that is
    never done to come back with an item instead of blocking; every permit
    is then taken again. *)
Theorem ReturnItem_unblocks_Borrow (v : bool) (x : Item) (w : World)
        (s : semaphore.Weighted) :
  semMax (pool w) = Some s ->
  semaphore.cur s = semaphore.size s ->
  1 <= semaphore.size s ->
  syncpool.New (syncPool (pool w)) = true ->
  exists w1 y w2,
    ReturnItem x w = Ret tt w1
    /\ Borrow v Background w1 = Ret y w2
    /\ semMax (pool w2) = Some s
    /\ max (pool w2) = max (pool w).
Proof.
  intros Hs Hcur Hsize Hnew.
  destruct w as [[i mx [priv sh nw] sem cnt] [a fin]]. cbn in Hs. subst sem.
  cbn in Hnew. subst nw.
  destruct s as [sz c]. cbn [semaphore.cur semaphore.size] in *. subst c.
  change {| pool := {| initial := i; max := mx;
                       syncPool := {| syncpool.private := priv;
                                      syncpool.shared := sh;
                                      syncpool.New := true |};
                       semMax := Some {| semaphore.size := sz;
                                         semaphore.cur := sz |};
                       count := cnt |};
            rt := {| allocs := a; finalizers := fin |} |}
    with (mkWorld i mx priv sh true (gate sz sz) cnt a fin).
  assert (Hbg : takes_free_permit v Background = true).
  { unfold takes_free_permit. cbn. rewrite andb_false_r. reflexivity. }
  rewrite ReturnItem_held by lia.
  destruct priv as [p|].
  - do 3 eexists. split; [reflexivity|].
    rewrite Borrow_reuses by (auto; lia).
    split; [reflexivity|].
    replace (sz - 1 + 1) with sz by lia. split; reflexivity.
  - do 3 eexists. split; [reflexivity|].
    rewrite Borrow_reuses by (auto; lia).
    split; [reflexivity|].
    replace (sz - 1 + 1) with sz by lia. split; reflexivity.
Qed.

Lemma ReturnItem_unblocks_Borrow_2_of_2 :
  exists w1 y w2,
    ReturnItem 0%nat (mkWorld 0 2 None [] true (gate 2 2) 2 2
                              [1%nat; 0%nat]) = Ret tt w1
    /\ Borrow true Background w1 = Ret y w2
    /\ semMax (pool w2) = gate 2 2.
Proof.
  destruct (ReturnItem_unblocks_Borrow true 0%nat
              (mkWorld 0 2 None [] true (gate 2 2) 2 2 [1%nat; 0%nat])
              {| semaphore.size := 2; semaphore.cur := 2 |})
    as (w1 & y & w2 & H1 & H2 & H3 & _).
  - reflexivity.
  - reflexivity.
  - simpl. lia.
  - reflexivity.
  - exists w1, y, w2. split; [exact H1|]. split; [exact H2 | exact H3].
Defined.

(** X6. A [Borrow] that comes back has done one of two things and not
    both: taken one item out of the idle cache, the factory not called and
    the counter and the finalizers as they were; or called the factory
    once, the item being the new one with its finalizer, the counter up by
    one as an int32 and the idle cache as it was. *)
Theorem Borrow_reuses_or_creates (v : bool) (ctx : Context) (w w' : World)
        (y : Item) :
  Borrow v ctx w = Ret y w' ->
  (Permutation (syncpool.idle (syncPool (pool w)))
               (y :: syncpool.idle (syncPool (pool w')))
   /\ rt w' = rt w
   /\ Count w' = Count w)
  \/ (syncpool.idle (syncPool (pool w'))
      = syncpool.idle (syncPool (pool w))
      /\ y = allocs (rt w)
      /\ allocs (rt w') = S (allocs (rt w))
      /\ finalizers (rt w') = y :: finalizers (rt w)
      /\ Count w' = wrap32 (Count w + 1)).
Proof.
  destruct w as [[i mx [priv sh nw] sem cnt] r].
  unfold Borrow, bind, acquire. cbn [pool semMax].
  assert (Hget : forall sem',
             Get {| pool := {| initial := i; max := mx;
                               syncPool := {| syncpool.private := priv;
                                              syncpool.shared := sh;
                                              syncpool.New := nw |};
                               semMax := sem'; count := cnt |};
                    rt := r |} = Ret y w' ->
             (Permutation (syncpool.idle {| syncpool.private := priv;
                                            syncpool.shared := sh;
                                            syncpool.New := nw |})
                          (y :: syncpool.idle (syncPool (pool w')))
              /\ rt w' = r
              /\ Count w' = cnt)
             \/ (syncpool.idle (syncPool (pool w'))
                 = syncpool.idle {| syncpool.private := priv;
                                    syncpool.shared := sh;
                                    syncpool.New := nw |}
                 /\ y = allocs r
                 /\ allocs (rt w') = S (allocs r)
                 /\ finalizers (rt w') = y :: finalizers r
                 /\ Count w' = wrap32 (cnt + 1))).
  { intros sem'. unfold Get, syncpool.idle.
    cbn [pool syncPool syncpool.take syncpool.private syncpool.shared
         syncpool.New].
    destruct priv as [p|].
    - intros H; inversion H; subst. left.
      split; [apply Permutation_refl|]. split; reflexivity.
    - destruct sh as [|z rest].
      + destruct nw; [|discriminate].
        intros H; inversion H; subst. right. repeat split.
      + intros H; inversion H; subst. left.
        split; [apply Permutation_refl|]. split; reflexivity. }
  destruct sem as [s|].
  - destruct (semaphore.Acquire v ctx 1 s) as [s'|s'|].
    + apply Hget.
    + apply Hget.
    + discriminate.
  - apply Hget.
Qed.

Lemma Borrow_reuses_or_creates_returned_item :
  exists w',
    Borrow true Background
           (mkWorld 0 5 (Some 0%nat) [] true (gate 5 1) 2 2 [1%nat; 0%nat])
    = Ret 0%nat w'
    /\ Count w' = 2.
Proof.
  assert (Hb : Borrow true Background
                      (mkWorld 0 5 (Some 0%nat) [] true (gate 5 1) 2 2
                               [1%nat; 0%nat])
               = Ret 0%nat (mkWorld 0 5 None [] true (gate 5 2) 2 2
                                    [1%nat; 0%nat])) by reflexivity.
  eexists. split; [exact Hb|].
  destruct (Borrow_reuses_or_creates true Background _ _ _ Hb)
    as [(_ & _ & Hc)|(_ & Hy & _)].
  - exact Hc.
  - discriminate Hy.
Defined.

(** X7. When nothing is idle and the factory is set, a [Borrow] that gets
    past the gate calls the factory once: the item is a new one with a
    finalizer of its own, the counter goes up by one (as an int32), and the
    cache stays empty. *)
Theorem Borrow_creates_when_nothing_idle (v : bool) (ctx : Context)
        (w : World) :
  syncpool.idle (syncPool (pool w)) = [] ->
  syncpool.New (syncPool (pool w)) = true ->
  blocked (Borrow v ctx w) = false ->
  exists w',
    Borrow v ctx w = Ret (allocs (rt w)) w'
    /\ allocs (rt w') = S (allocs (rt w))
    /\ finalizers (rt w') = allocs (rt w) :: finalizers (rt w)
    /\ Count w' = wrap32 (Count w + 1)
    /\ syncpool.idle (syncPool (pool w')) = [].
Proof.
  intros Hidle Hnew Hnb.
  destruct w as [[i mx [priv sh nw] sem cnt] r].
  unfold syncpool.idle in Hidle. cbn in Hidle, Hnew. subst nw.
  destruct priv as [p|]; [discriminate|]. subst sh.
  unfold Borrow, bind, acquire in *. cbn [pool semMax] in *.
  destruct sem as [s|].
  - destruct (semaphore.Acquire v ctx 1 s) as [s'|s'|].
    + eexists. split; [reflexivity|]. repeat split.
    + eexists. split; [reflexivity|]. repeat split.
    + discriminate.
  - eexists. split; [reflexivity|]. repeat split.
Qed.

Lemma Borrow_creates_when_nothing_idle_third :
  exists w',
    Borrow true Background
           (mkWorld 0 5 None [] true (gate 5 2) 2 2 [1%nat; 0%nat])
    = Ret 2%nat w'
    /\ Count w' = 3.
Proof.
  destruct (Borrow_creates_when_nothing_idle true Background
              (mkWorld 0 5 None [] true (gate 5 2) 2 2 [1%nat; 0%nat]))
    as (w' & H & _ & _ & Hc & _).
  - reflexivity.
  - reflexivity.
  - reflexivity.
  - exists w'. split; [exact H | exact Hc].
Defined.

(** X8. A [Borrow] that waited for its permit and the [ReturnItem] of the
    item it got cancel out on the gate: the permits held are as before the
    [Borrow], the item is idle, and the counter is as the [Borrow] left
    it. *)
Theorem Borrow_then_ReturnItem (v : bool) (x : Item) (w w1 : World)
        (s : semaphore.Weighted) :
  semMax (pool w) = Some s ->
  0 <= semaphore.cur s ->
  Borrow v Background w = Ret x w1 ->
  exists w2,
    ReturnItem x w1 = Ret tt w2
    /\ semMax (pool w2) = Some s
    /\ In x (syncpool.idle (syncPool (pool w2)))
    /\ Count w2 = Count w1
    /\ rt w2 = rt w1.
Proof.
  intros Hs Hcur Hb.
  destruct s as [sz c]. cbn [semaphore.cur] in Hcur.
  destruct (Borrow_Background_frame v w w1 x sz c Hs Hb)
    as (Hroom & Hsem1 & _ & _).
  destruct w1 as [[i mx [priv sh nw] sem cnt] r]. cbn in Hsem1. subst sem.
  unfold ReturnItem, bind, release, semaphore.Release, gate.
  cbn [pool semMax syncPool with_syncPool semaphore.cur semaphore.size].
  replace (c + 1 - 1 <? 0) with false by (symmetry; apply Z.ltb_ge; lia).
  replace (c + 1 - 1) with c by lia.
  eexists. split; [reflexivity|].
  split; [reflexivity|].
  split; [|split; reflexivity].
  unfold syncpool.idle, syncpool.Put. cbn.
  destruct priv; cbn; auto.
Qed.

Lemma Borrow_then_ReturnItem_first :
  exists w1 w2,
    Borrow true Background (mkWorld 0 5 None [] true (gate 5 0) 0 0 [])
    = Ret 0%nat w1
    /\ ReturnItem 0%nat w1 = Ret tt w2
    /\ semMax (pool w2) = gate 5 0.
Proof.
  assert (Hb : Borrow true Background
                      (mkWorld 0 5 None [] true (gate 5 0) 0 0 [])
               = Ret 0%nat (mkWorld 0 5 None [] true (gate 5 1) 1 1
                                    [0%nat])) by reflexivity.
  destruct (Borrow_then_ReturnItem true 0%nat
              (mkWorld 0 5 None [] true (gate 5 0) 0 0 [])
              (mkWorld 0 5 None [] true (gate 5 1) 1 1 [0%nat])
              {| semaphore.size := 5; semaphore.cur := 0 |}
              eq_refl ltac:(simpl; lia) Hb) as (w2 & H1 & H2 & _).
  eexists. exists w2. split; [exact Hb|]. split; [exact H1 | exact H2].
Defined.

(** X9. Whether it returns or panics, [ReturnItem] has put the item in the
    idle cache: the cache holds what it held before and the item, nothing
    lost and nothing twice. *)
Theorem ReturnItem_makes_item_idle (x : Item) (w : World) :
  Permutation (syncpool.idle (syncPool (pool (after (ReturnItem x w)))))
              (x :: syncpool.idle (syncPool (pool w))).
Proof.
  destruct (ReturnItem_effect x w) as (_ & _ & _ & _ & Hp & _).
  rewrite Hp. unfold syncpool.idle, syncpool.Put.
  destruct (syncpool.private (syncPool (pool w))) as [p|]; cbn.
  - apply perm_swap.
  - apply Permutation_refl.
Qed.

(** ** The gate along a run *)

Lemma keeps_gate_bind {A B} (m : Z) (op : M A) (k : A -> M B) :
  keeps_gate m op -> (forall a, keeps_gate m (k a)) ->
  keeps_gate m (bind op k).
Proof.
  intros Hop Hk w b w' Hw. unfold bind.
  destruct (op w) as [a w1|w1|msg w1] eqn:E; try discriminate.
  intros H. exact (Hk a w1 b w' (Hop w a w1 Hw E) H).
Qed.

Lemma acquire_keeps_gate (v : bool) (ctx : Context) (m : Z) :
  keeps_gate m (acquire v ctx).
Proof.
  intros w u w' (Hmax & Hsem). unfold acquire.
  destruct (semMax (pool w)) as [s|] eqn:Es.
  - unfold semaphore.Acquire.
    destruct (v && is_done ctx).
    + intros H; inversion H; subst w'. split; [exact Hmax|].
      rewrite Es. exact Hsem.
    + destruct (1 <=? semaphore.size s - semaphore.cur s) eqn:E.
      * apply Z.leb_le in E.
        intros H; inversion H; subst w'. split; [exact Hmax|].
        cbn. lia.
      * destruct ctx; try discriminate;
          (intros H; inversion H; subst w'; split; [exact Hmax|];
           rewrite Es; exact Hsem).
  - intros H; inversion H; subst w'. split; [exact Hmax|].
    rewrite Es. exact Hsem.
Qed.

Lemma Get_keeps_gate (m : Z) : keeps_gate m Get.
Proof.
  intros w x w' Hw. unfold Get.
  destruct (syncpool.take (syncPool (pool w))) as [[y|] sp].
  - intros H; inversion H; subst w'. exact Hw.
  - destruct (syncpool.New (syncPool (pool w))); [|discriminate].
    intros H; inversion H; subst w'. exact Hw.
Qed.

Lemma Borrow_keeps_gate (v : bool) (ctx : Context) (m : Z) :
  keeps_gate m (Borrow v ctx).
Proof.
  unfold Borrow. apply keeps_gate_bind.
  - apply acquire_keeps_gate.
  - intros _. apply Get_keeps_gate.
Qed.

Lemma ReturnItem_keeps_gate (x : Item) (m : Z) :
  keeps_gate m (ReturnItem x).
Proof.
  intros w u w' (Hmax & Hsem) Hret.
  destruct (ReturnItem_effect x w) as (_ & _ & _ & Hmax' & _ & Hsem' & _).
  rewrite Hret in Hmax', Hsem'. cbn [after] in Hmax', Hsem'.
  split; [rewrite Hmax'; exact Hmax|].
  rewrite Hsem'.
  destruct (semMax (pool w)) as [s|] eqn:Es; [|exact Hsem].
  cbn [semaphore.size semaphore.cur].
  assert (Hpos : 0 <= semaphore.cur s - 1).
  { unfold ReturnItem, bind, release, semaphore.Release in Hret.
    cbn [pool semMax with_syncPool] in Hret. rewrite Es in Hret.
    cbn [semaphore.cur] in Hret.
    destruct (semaphore.cur s - 1 <? 0) eqn:E; [discriminate|].
    apply Z.ltb_ge in E. exact E. }
  lia.
Qed.

Lemma borrowLoop_keeps_gate (v : bool) (ctx : Context) (m : Z) (k : nat) :
  forall acc, keeps_gate m (borrowLoop v ctx k acc).
Proof.
  induction k as [|k IH]; intros acc.
  - intros w l w' Hw H. inversion H; subst w'. exact Hw.
  - cbn [borrowLoop]. apply keeps_gate_bind.
    + apply Borrow_keeps_gate.
    + intros x. apply IH.
Qed.

Lemma returnLoop_keeps_gate (m : Z) (l : list Item) :
  keeps_gate m (returnLoop l).
Proof.
  induction l as [|x l IH].
  - intros w u w' Hw H. inversion H; subst w'. exact Hw.
  - cbn [returnLoop]. apply keeps_gate_bind.
    + apply ReturnItem_keeps_gate.
    + intros _. exact IH.
Qed.

Lemma SetFactory_keeps_gate (v : bool) (ctx : Context) (m : Z) :
  keeps_gate m (SetFactory v ctx).
Proof.
  unfold SetFactory. apply keeps_gate_bind.
  - intros w u w' Hw H. inversion H; subst w'. exact Hw.
  - intros _ w u w' Hw.
    destruct (0 <? initial (pool w)).
    + refine (keeps_gate_bind m
                (borrowLoop v ctx (Z.to_nat (initial (pool w))) []) _ _ _
                w u w' Hw).
      * apply borrowLoop_keeps_gate.
      * intros items. apply keeps_gate_bind.
        -- apply returnLoop_keeps_gate.
        -- intros _ w1 u1 w1' Hw1 H. inversion H; subst w1'. exact Hw1.
    + intros H. inversion H; subst w'. exact Hw.
Qed.

Lemma step_keeps_gate (v : bool) (m : Z) (c : Call) (r r' : Run) :
  step v c r = Some r' -> gate_ok m (world r) -> gate_ok m (world r').
Proof.
  intros Hstep Hr. destruct c as [ctx|ctx|x| |x]; cbn [step] in Hstep.
  - destruct (SetFactory v ctx (world r)) as [u w| |] eqn:E;
      inversion Hstep; subst r'.
    exact (SetFactory_keeps_gate v ctx m _ _ _ Hr E).
  - destruct (Borrow v ctx (world r)) as [y w| |] eqn:E;
      inversion Hstep; subst r'.
    exact (Borrow_keeps_gate v ctx m _ _ _ Hr E).
  - destruct (ReturnItem x (world r)) as [u w| |] eqn:E;
      inversion Hstep; subst r'.
    exact (ReturnItem_keeps_gate x m _ _ _ Hr E).
  - inversion Hstep; subst r'. exact Hr.
  - unfold finalize in Hstep.
    destruct (existsb (Nat.eqb x) (finalizers (rt (world r))));
      inversion Hstep; subst r'.
    exact Hr.
Qed.

Lemma fresh_gate_ok (opts : list PoolOption) :
  gate_ok (max (NewPool opts)) (world (fresh opts)).
Proof.
  unfold gate_ok, fresh. cbn [world]. rewrite NewPool_shape.
  unfold mkWorld. cbn [pool max semMax].
  split; [reflexivity|].
  destruct (0 <? max (NewPool opts)) eqn:E.
  - apply Z.ltb_lt in E. unfold gate.
    cbn [semaphore.size semaphore.cur]. lia.
  - apply Z.ltb_ge in E. exact E.
Qed.

(** X10. Along every run of calls that come back, whatever their contexts
    and whatever is returned, the pool's maximum stays the one it was built
    with, a pool built unbounded stays so, and the gate of a bounded pool
    keeps its size with between 0 and [max] permits held. *)
Theorem gate_within_bounds (v : bool) (opts : list PoolOption)
        (calls : list Call) (r : Run) :
  run v calls (fresh opts) = Some r ->
  max (pool (world r)) = max (NewPool opts)
  /\ match semMax (pool (world r)) with
     | None => max (NewPool opts) <= 0
     | Some s => semaphore.size s = max (NewPool opts)
                 /\ 0 <= semaphore.cur s <= semaphore.size s
     end.
Proof.
  intros Hrun.
  change (gate_ok (max (NewPool opts)) (world r)).
  pose proof (fresh_gate_ok opts) as H0.
  revert Hrun H0. generalize (fresh opts). generalize (max (NewPool opts)).
  intros m r0. revert r0.
  induction calls as [|c calls IH]; intros r0 Hrun H0; cbn [run] in Hrun.
  - inversion Hrun; subst r. exact H0.
  - destruct (step v c r0) as [r1|] eqn:E; [|discriminate].
    exact (IH r1 Hrun (step_keeps_gate v m c r0 r1 E H0)).
Qed.

Lemma gate_within_bounds_after_cancelled_Borrow :
  exists r,
    run true [CallSetFactory Background; CallBorrow Background;
              CallBorrow Cancelled; CallReturnItem 1%nat]
        (fresh [WithSize 1]) = Some r
    /\ max (pool (world r)) = 1
    /\ semMax (pool (world r)) = gate 1 0.
Proof.
  assert (Hrun : run true [CallSetFactory Background; CallBorrow Background;
                           CallBorrow Cancelled; CallReturnItem 1%nat]
                     (fresh [WithSize 1])
                 = Some {| world := mkWorld 0 1 (Some 1%nat) [] true
                                            (gate 1 0) 2 2 [1%nat; 0%nat];
                           outstanding := [0%nat] |}) by reflexivity.
  eexists. split; [exact Hrun|].
  destruct (gate_within_bounds true [WithSize 1] _ _ Hrun) as (Hm & _).
  split; [exact Hm | reflexivity].
Defined.

(** ** Runs that create *)

Lemma patient_witness_run :
  run false [CallSetFactory Background; CallBorrow Background;
             CallBorrow Background; CallReturnItem 0%nat; CallCount;
             CallBorrow Background]
      (fresh [WithSize 2])
  = Some {| world := mkWorld 0 2 None [] true (gate 2 2) 2 2 [1%nat; 0%nat];
            outstanding := [0%nat; 1%nat] |}.
Proof. reflexivity. Qed.

Lemma outstanding_bounded_when_patient_size_2 :
  exists r,
    run false [CallSetFactory Background; CallBorrow Background;
               CallBorrow Background; CallReturnItem 0%nat; CallCount;
               CallBorrow Background]
        (fresh [WithSize 2]) = Some r
    /\ Z.of_nat (length (outstanding r)) <= max (pool (world r)).
Proof.
  assert (Hm : 0 < max (NewPool [WithSize 2])) by (vm_compute; reflexivity).
  assert (Hp : patient false
                 [CallSetFactory Background; CallBorrow Background;
                  CallBorrow Background; CallReturnItem 0%nat; CallCount;
                  CallBorrow Background]
                 (fresh [WithSize 2]) = true) by reflexivity.
  eexists. split; [exact patient_witness_run|].
  destruct (outstanding_bounded_when_patient false [WithSize 2]
              [CallSetFactory Background; CallBorrow Background;
               CallBorrow Background; CallReturnItem 0%nat; CallCount;
               CallBorrow Background]
              _ Hm Hp patient_witness_run) as (Hle & _).
  exact Hle.
Defined.

(** X12. A pool built unbounded never blocks and never runs out: after
    [SetFactory], any number of [Borrow] calls come back, under any
    context, each with a new item, and the counter is their number as an
    int32. *)
Theorem unbounded_pool_never_blocks (v : bool) (ctx0 ctx : Context)
        (opts : list PoolOption) (n : nat) :
  semMax (NewPool opts) = None ->
  exists r,
    run v (CallSetFactory ctx0 :: repeat (CallBorrow ctx) n) (fresh opts)
    = Some r
    /\ outstanding r = rev (seq 0 n)
    /\ Count (world r) = wrap32 (Z.of_nat n)
    /\ semMax (pool (world r)) = None.
Proof.
  intros Hnone.
  pose proof (NewPool_shape opts) as Hshape. cbv zeta in Hshape.
  pose proof (NewPool_max_ge_initial opts) as Hge.
  assert (Hmax : (0 <? max (NewPool opts)) = false).
  { assert (H : semMax (pool (start (NewPool opts))) = None) by exact Hnone.
    rewrite Hshape in H. unfold mkWorld in H. cbn [pool semMax] in H.
    destruct (0 <? max (NewPool opts)); [discriminate | reflexivity]. }
  rewrite Hmax in Hshape.
  assert (Hinit : (0 <? initial (NewPool opts)) = false).
  { apply Z.ltb_ge. apply Z.ltb_ge in Hmax. lia. }
  assert (Hset : step v (CallSetFactory ctx0) (fresh opts)
                 = Some {| world := mkWorld (initial (NewPool opts))
                                            (max (NewPool opts)) None []
                                            true None 0 0 [];
                           outstanding := [] |}).
  { unfold fresh. cbn [step world outstanding]. rewrite Hshape.
    unfold SetFactory, bind, setNew, mkWorld, with_syncPool.
    cbn [pool initial]. rewrite Hinit. reflexivity. }
  cbn [run]. rewrite Hset.
  rewrite run_creates_unbounded by reflexivity.
  eexists. split; [reflexivity|].
  cbn [outstanding world]. rewrite !app_nil_r.
  split; [reflexivity|]. split; reflexivity.
Qed.

Lemma unbounded_pool_never_blocks_default :
  exists r,
    run true (CallSetFactory Cancelled :: repeat (CallBorrow Cancelled) 3)
        (fresh []) = Some r
    /\ outstanding r = [2%nat; 1%nat; 0%nat].
Proof.
  destruct (unbounded_pool_never_blocks true Cancelled Cancelled [] 3)
    as (r & Hr & Ho & _).
  - reflexivity.
  - exists r. split; [exact Hr | exact Ho].
Defined.

Lemma run_creates_gated (v : bool) (ctx : Context) (i mx m : Z) :
  takes_free_permit v ctx = true ->
  forall (k : nat) (held : list Item) (c cnt : Z) (a : nat)
         (fin : list Item),
    c + Z.of_nat k <= m ->
    wrap32 cnt = cnt ->
    run v (repeat (CallBorrow ctx) k)
        {| world := mkWorld i mx None [] true (gate m c) cnt a fin;
           outstanding := held |}
    = Some {| world := mkWorld i mx None [] true
                               (gate m (c + Z.of_nat k))
                               (wrap32 (cnt + Z.of_nat k)) (a + k)%nat
                               (rev (seq a k) ++ fin);
              outstanding := rev (seq a k) ++ held |}.
Proof.
  intros Hctx k. induction k as [|k IH]; intros held c cnt a fin Hk Hcnt.
  - cbn [repeat run seq rev app].
    rewrite !Z.add_0_r, Nat.add_0_r, Hcnt. reflexivity.
  - cbn [repeat run step world outstanding].
    rewrite Borrow_creates by (auto; lia).
    rewrite IH by (try lia; apply wrap32_small, wrap32_range).
    rewrite wrap32_add_l. cbn [seq rev].
    rewrite <- !app_assoc. cbn [app].
    replace (c + 1 + Z.of_nat k) with (c + Z.of_nat (S k)) by lia.
    replace (cnt + 1 + Z.of_nat k) with (cnt + Z.of_nat (S k)) by lia.
    replace (S a + k)%nat with (a + S k)%nat by lia.
    reflexivity.
Qed.

(** X13. On a bounded pool built without bootstrap, the first [k] borrows,
    for [k] up to [max], all come back with [k] different new items; the
    gate then holds [k] permits and the counter is [k] as an int32. *)
Theorem borrows_up_to_max (v : bool) (ctx0 ctx : Context)
        (opts : list PoolOption) (k : nat) :
  initial (NewPool opts) <= 0 ->
  0 < max (NewPool opts) ->
  Z.of_nat k <= max (NewPool opts) ->
  takes_free_permit v ctx = true ->
  exists r,
    run v (CallSetFactory ctx0 :: repeat (CallBorrow ctx) k) (fresh opts)
    = Some r
    /\ outstanding r = rev (seq 0 k)
    /\ NoDup (outstanding r)
    /\ Count (world r) = wrap32 (Z.of_nat k)
    /\ semMax (pool (world r)) = gate (max (NewPool opts)) (Z.of_nat k).
Proof.
  intros Hinit Hmax Hk Hctx.
  pose proof (NewPool_shape opts) as Hshape. cbv zeta in Hshape.
  replace (0 <? max (NewPool opts)) with true in Hshape
    by (symmetry; apply Z.ltb_lt; lia).
  assert (Hset : step v (CallSetFactory ctx0) (fresh opts)
                 = Some {| world := mkWorld (initial (NewPool opts))
                                            (max (NewPool opts)) None []
                                            true
                                            (gate (max (NewPool opts)) 0)
                                            0 0 [];
                           outstanding := [] |}).
  { unfold fresh. cbn [step world outstanding]. rewrite Hshape.
    unfold SetFactory, bind, setNew, mkWorld, with_syncPool.
    cbn [pool initial].
    replace (0 <? initial (NewPool opts)) with false
      by (symmetry; apply Z.ltb_ge; lia).
    reflexivity. }
  cbn [run]. rewrite Hset.
  rewrite (run_creates_gated v ctx _ _ (max (NewPool opts)) Hctx)
    by (try lia; reflexivity).
  eexists. split; [reflexivity|].
  cbn [outstanding world]. rewrite !app_nil_r.
  split; [reflexivity|].
  split; [apply NoDup_rev, seq_NoDup|].
  split; reflexivity.
Qed.

Lemma borrows_up_to_max_4_of_5 :
  exists r,
    run true (CallSetFactory Background :: repeat (CallBorrow Background) 4)
        (fresh [WithSize 5]) = Some r
    /\ Count (world r) = 4.
Proof.
  destruct (borrows_up_to_max true Background Background [WithSize 5] 4)
    as (r & Hr & _ & _ & Hc & _).
  - vm_compute. discriminate.
  - vm_compute. reflexivity.
  - vm_compute. discriminate.
  - reflexivity.
  - exists r. split; [exact Hr | exact Hc].
Defined.

(** ** Reclamation *)

Lemma run_finalizers (v : bool) :
  forall (l : list Item) (r : Run),
    finalizers (rt (world r)) = l ->
    exists r',
      run v (map Finalizer l) r = Some r'
      /\ finalizers (rt (world r')) = []
      /\ outstanding r' = outstanding r.
Proof.
  induction l as [|x l IH]; intros r Hl.
  - exists r. cbn. repeat split. exact Hl.
  - cbn [map run step]. unfold finalize. rewrite Hl.
    cbn [existsb remove1]. rewrite Nat.eqb_refl. cbn [orb].
    match goal with
    | |- context [run v (map Finalizer l) ?r1] =>
        destruct (IH r1 eq_refl) as (r' & Hrun & Hfin & Hout)
    end.
    exists r'. split; [exact Hrun|]. split; [exact Hfin | exact Hout].
Qed.

(** X14. From any state a run reaches, once the finalizer of every item
    that still has one has run, [Count] is 0, whatever wrapping the counter
    went through before. *)
Theorem Count_zero_when_all_reclaimed (v : bool) (opts : list PoolOption)
        (calls : list Call) (r : Run) :
  run v calls (fresh opts) = Some r ->
  exists r',
    run v (map Finalizer (finalizers (rt (world r)))) r = Some r'
    /\ finalizers (rt (world r')) = []
    /\ Count (world r') = 0.
Proof.
  intros Hrun.
  destruct (run_finalizers v (finalizers (rt (world r))) r eq_refl)
    as (r' & Hrun' & Hfin & _).
  exists r'. split; [exact Hrun'|]. split; [exact Hfin|].
  pose proof (run_counted v calls _ _ Hrun (fresh_counted opts)) as Hc.
  pose proof (run_counted v _ _ _ Hrun' Hc) as Hc'.
  unfold counted in Hc'. rewrite Hfin in Hc'. exact Hc'.
Qed.

Lemma Count_zero_when_all_reclaimed_bootstrap :
  exists r r',
    run true [CallSetFactory Background] (fresh [WithBootstrapItems 3])
    = Some r
    /\ Count (world r) = 3
    /\ run true (map Finalizer (finalizers (rt (world r)))) r = Some r'
    /\ Count (world r') = 0.
Proof.
  assert (Hrun : run true [CallSetFactory Background]
                     (fresh [WithBootstrapItems 3])
                 = Some {| world := bootstrapped 3 3; outstanding := [] |})
    by reflexivity.
  destruct (Count_zero_when_all_reclaimed true [WithBootstrapItems 3]
              [CallSetFactory Background] _ Hrun) as (r' & Hr' & _ & Hc).
  eexists. exists r'. split; [exact Hrun|]. split; [reflexivity|].
  split; [exact Hr' | exact Hc].
Defined.

(** ** Bootstrap under a context that is done *)

(** X15. With a semaphore that looks at the context first, [SetFactory]
    under a context that is already done panics during the bootstrap: the
    borrows create their items without a permit, and the first return
    releases a permit nobody holds.  The items stay counted, one of them is
    idle, and [initial] is not reset. *)
Theorem SetFactory_done_context_panics (v : bool) (ctx : Context)
        (opts : list PoolOption) :
  v && is_done ctx = true ->
  0 < initial (NewPool opts) ->
  exists w',
    SetFactory v ctx (start (NewPool opts)) = Panic ReleasedMoreThanHeld w'
    /\ allocs (rt w') = Z.to_nat (initial (NewPool opts))
    /\ initial (pool w') = initial (NewPool opts)
    /\ semMax (pool w') = gate (max (NewPool opts)) (-1)
    /\ syncpool.idle (syncPool (pool w'))
       = [(Z.to_nat (initial (NewPool opts)) - 1)%nat].
Proof.
  intros Hctx Hi.
  pose proof (NewPool_shape opts) as Hshape. cbv zeta in Hshape.
  pose proof (NewPool_max_ge_initial opts) as Hge.
  replace (0 <? max (NewPool opts)) with true in Hshape
    by (symmetry; apply Z.ltb_lt; lia).
  rewrite Hshape.
  generalize dependent (max (NewPool opts)).
  generalize dependent (initial (NewPool opts)).
  intros i Hi m _ _.
  destruct (borrowLoop_done_context v ctx i m m 0 Hctx (Z.to_nat i) [] 0
                                    0%nat []) as (cnt' & Hloop).
  unfold SetFactory. unfold bind at 1.
  unfold setNew, with_syncPool, mkWorld at 1.
  cbn [pool rt initial max syncPool semMax count
       syncpool.private syncpool.shared].
  replace (0 <? i) with true by (symmetry; apply Z.ltb_lt; lia).
  unfold bind at 1.
  lazymatch goal with
  | |- exists w', match ?t with _ => _ end = _ /\ _ =>
      replace t with
        (Ret (seq 0 (Z.to_nat i))
             (mkWorld i m None [] true (gate m 0) cnt' (Z.to_nat i)
                      (rev (seq 0 (Z.to_nat i)) ++ [])))
        by (symmetry; exact Hloop)
  end.
  cbv beta iota.
  rewrite (bootstrap_order (Z.to_nat i)) by lia.
  eexists. split; [reflexivity|].
  repeat split.
Qed.

Lemma SetFactory_done_context_panics_5 :
  exists w',
    SetFactory true Cancelled
               (start (NewPool [WithSize 10; WithBootstrapItems 5]))
    = Panic ReleasedMoreThanHeld w'
    /\ allocs (rt w') = 5%nat.
Proof.
  destruct (SetFactory_done_context_panics true Cancelled
              [WithSize 10; WithBootstrapItems 5])
    as (w' & H & Ha & _).
  - reflexivity.
  - vm_compute. reflexivity.
  - exists w'. split; [exact H | exact Ha].
Defined.

(** ** No item in two hands *)

Lemma Put_idle (x : Item) (sp : syncpool.Pool) :
  Permutation (syncpool.idle (syncpool.Put x sp)) (x :: syncpool.idle sp).
Proof.
  unfold syncpool.idle, syncpool.Put.
  destruct (syncpool.private sp) as [p|]; cbn.
  - apply perm_swap.
  - apply Permutation_refl.
Qed.

Lemma drop_idle (x : Item) (sp : syncpool.Pool) :
  syncpool.idle (syncpool.drop x sp)
  = filter (fun y => negb (Nat.eqb x y)) (syncpool.idle sp).
Proof.
  unfold syncpool.idle, syncpool.drop. cbn.
  destruct (syncpool.private sp) as [p|]; cbn; [|reflexivity].
  destruct (Nat.eqb x p); reflexivity.
Qed.

Lemma Borrow_cases (v : bool) (ctx : Context) (w w' : World) (y : Item) :
  Borrow v ctx w = Ret y w' ->
  initial (pool w') = initial (pool w)
  /\ ((syncpool.idle (syncPool (pool w))
       = y :: syncpool.idle (syncPool (pool w'))
       /\ allocs (rt w') = allocs (rt w))
      \/ (syncpool.idle (syncPool (pool w)) = []
          /\ syncpool.idle (syncPool (pool w')) = []
          /\ y = allocs (rt w)
          /\ allocs (rt w') = S (allocs (rt w)))).
Proof.
  destruct w as [[i mx [priv sh nw] sem cnt] r].
  unfold Borrow, bind, acquire. cbn [pool semMax].
  assert (Hget : forall sem',
             Get {| pool := {| initial := i; max := mx;
                               syncPool := {| syncpool.private := priv;
                                              syncpool.shared := sh;
                                              syncpool.New := nw |};
                               semMax := sem'; count := cnt |};
                    rt := r |} = Ret y w' ->
             initial (pool w') = i
             /\ ((syncpool.idle {| syncpool.private := priv;
                                   syncpool.shared := sh;
                                   syncpool.New := nw |}
                  = y :: syncpool.idle (syncPool (pool w'))
                  /\ allocs (rt w') = allocs r)
                 \/ (syncpool.idle {| syncpool.private := priv;
                                      syncpool.shared := sh;
                                      syncpool.New := nw |} = []
                     /\ syncpool.idle (syncPool (pool w')) = []
                     /\ y = allocs r
                     /\ allocs (rt w') = S (allocs r)))).
  { intros sem'. unfold Get, syncpool.idle.
    cbn [pool syncPool syncpool.take syncpool.private syncpool.shared
         syncpool.New].
    destruct priv as [p|].
    - intros H; inversion H; subst. cbn.
      split; [reflexivity|]. left. split; reflexivity.
    - destruct sh as [|z rest].
      + destruct nw; [|discriminate].
        intros H; inversion H; subst. cbn.
        split; [reflexivity|]. right. repeat split.
      + intros H; inversion H; subst. cbn.
        split; [reflexivity|]. left. split; reflexivity. }
  destruct sem as [s|].
  - destruct (semaphore.Acquire v ctx 1 s) as [s'|s'|].
    + apply Hget.
    + apply Hget.
    + discriminate.
  - apply Hget.
Qed.

Lemma remove1_Permutation (x : Item) (l : list Item) :
  existsb (Nat.eqb x) l = true ->
  Permutation l (x :: remove1 x l).
Proof.
  induction l as [|y l IH]; cbn [existsb remove1].
  - discriminate.
  - destruct (Nat.eqb x y) eqn:E; cbn [orb].
    + intros _. apply Nat.eqb_eq in E. subst y. apply Permutation_refl.
    + intros H. eapply perm_trans.
      * apply perm_skip. exact (IH H).
      * apply perm_swap.
Qed.

Lemma NoDup_app_filter (f : Item -> bool) (a b : list Item) :
  NoDup (a ++ b) -> NoDup (a ++ filter f b).
Proof.
  induction a as [|x a IH]; cbn [app].
  - apply NoDup_filter.
  - intros H. inversion H as [|? ? Hnot Hnd]; subst.
    constructor.
    + intros Hin. apply Hnot. apply in_app_or in Hin.
      apply in_or_app. destruct Hin as [Hin|Hin]; [left; exact Hin|].
      right. apply filter_In in Hin. apply Hin.
    + apply IH, Hnd.
Qed.

Lemma Forall_app_filter (P : Item -> Prop) (f : Item -> bool)
      (a b : list Item) :
  Forall P (a ++ b) -> Forall P (a ++ filter f b).
Proof.
  intros H. apply Forall_app in H. destruct H as (Ha & Hb).
  apply Forall_app. split; [exact Ha|].
  apply Forall_forall. intros y Hy. apply filter_In in Hy.
  rewrite Forall_forall in Hb. apply Hb, Hy.
Qed.

Lemma bootstrapped_exclusive (m : Z) (n : nat) :
  (0 < n)%nat ->
  exclusive {| world := bootstrapped m n; outstanding := [] |}.
Proof.
  intros Hn. unfold exclusive, bootstrapped, mkWorld, syncpool.idle.
  cbn [world outstanding pool syncPool syncpool.private syncpool.shared
       rt allocs app].
  split.
  - constructor; [|apply seq_NoDup].
    intros Hin. apply in_seq in Hin. lia.
  - constructor; [lia|].
    apply Forall_forall. intros y Hy. apply in_seq in Hy. lia.
Qed.

Lemma step_exclusive (v : bool) (opts : list PoolOption) (c : Call)
      (r r' : Run) :
  exclusive r -> before_bootstrap opts r ->
  returns_held c (outstanding r) = true ->
  step v c r = Some r' ->
  exclusive r' /\ before_bootstrap opts r'.
Proof.
  intros (Hnd & Hall) Hfresh Hheld Hstep.
  destruct c as [ctx|ctx|x| |x]; cbn [step] in Hstep.
  - (* SetFactory *)
    destruct (0 <? initial (pool (world r))) eqn:Hi.
    + apply Z.ltb_lt in Hi. pose proof (Hfresh Hi) as Er. subst r.
      assert (Hi' : 0 < initial (NewPool opts)) by exact Hi.
      cbn [fresh world outstanding] in Hstep.
      destruct (takes_free_permit v ctx) eqn:Hctx.
      * destruct (SetFactory_fresh v ctx opts Hi' Hctx) as (_ & _ & Hset).
        assert (Hn : (0 < Z.to_nat (initial (NewPool opts)))%nat) by lia.
        rewrite Hset in Hstep. inversion Hstep; subst r'; clear Hstep.
        split.
        -- apply bootstrapped_exclusive. exact Hn.
        -- intros H. unfold bootstrapped, mkWorld in H.
           cbn [world pool initial] in H. lia.
      * exfalso. unfold takes_free_permit in Hctx.
        apply negb_false_iff in Hctx.
        pose proof (SetFactory_done_context v ctx (initial (NewPool opts))
                      (max (NewPool opts)) Hctx Hi') as Hno.
        pose proof (NewPool_shape opts) as Hshape. cbv zeta in Hshape.
        pose proof (NewPool_max_ge_initial opts) as Hge.
        replace (0 <? max (NewPool opts)) with true in Hshape
          by (symmetry; apply Z.ltb_lt; lia).
        rewrite Hshape in Hstep.
        destruct (SetFactory v ctx
                    (mkWorld (initial (NewPool opts)) (max (NewPool opts))
                             None [] false (gate (max (NewPool opts)) 0)
                             0 0 [])); discriminate.
    + unfold SetFactory, bind, setNew in Hstep.
      cbn [with_syncPool pool initial] in Hstep. rewrite Hi in Hstep.
      inversion Hstep; subst r'; clear Hstep.
      split.
      * split; [exact Hnd | exact Hall].
      * intros H. cbn in H. apply Z.ltb_ge in Hi. lia.
  - (* Borrow *)
    destruct (Borrow v ctx (world r)) as [y w'| |] eqn:Hb; try discriminate.
    inversion Hstep; subst r'; clear Hstep.
    destruct (Borrow_cases v ctx _ _ _ Hb) as (Hinit & Hcase).
    split.
    + unfold exclusive. cbn [world outstanding].
      destruct Hcase as [(Hidle & Ha)|(Hidle & Hidle' & Hy & Ha)].
      * rewrite Hidle in Hnd, Hall. rewrite Ha.
        split.
        -- eapply Permutation_NoDup; [|exact Hnd].
           apply Permutation_sym. cbn [app]. apply Permutation_middle.
        -- eapply Permutation_Forall; [|exact Hall].
           apply Permutation_sym. cbn [app]. apply Permutation_middle.
      * rewrite Hidle in Hnd, Hall. rewrite Hidle', Ha. subst y.
        cbn [app]. split.
        -- constructor; [|exact Hnd].
           intros Hin. rewrite Forall_forall in Hall.
           specialize (Hall _ Hin). lia.
        -- constructor; [lia|].
           eapply Forall_impl; [|exact Hall]. cbn. intros; lia.
    + intros H. cbn [world] in H. rewrite Hinit in H.
      exfalso. rewrite (Hfresh H) in Hb. cbn [fresh world] in Hb.
      pose proof (Borrow_before_SetFactory v ctx opts) as Hno.
      rewrite Hb in Hno. discriminate.
  - (* ReturnItem *)
    cbn [returns_held] in Hheld.
    destruct (ReturnItem_effect x (world r))
      as (Hrt & _ & Hinit & _ & Hsp & _).
    destruct (ReturnItem x (world r)) as [u w'| |] eqn:Hr; try discriminate.
    inversion Hstep; subst r'; clear Hstep. cbn [after] in *.
    assert (Hperm : Permutation
                      (outstanding r
                         ++ syncpool.idle (syncPool (pool (world r))))
                      (remove1 x (outstanding r)
                         ++ syncpool.idle (syncPool (pool w')))).
    { rewrite Hsp.
      eapply perm_trans;
        [apply Permutation_app_tail, (remove1_Permutation x _ Hheld)|].
      cbn [app]. eapply perm_trans; [apply Permutation_middle|].
      apply Permutation_app_head, Permutation_sym, Put_idle. }
    split.
    + unfold exclusive. cbn [world outstanding]. rewrite Hrt.
      split.
      * eapply Permutation_NoDup; [exact Hperm | exact Hnd].
      * eapply Permutation_Forall; [exact Hperm | exact Hall].
    + intros H. cbn [world] in H. rewrite Hinit in H.
      rewrite (Hfresh H) in Hheld. discriminate.
  - (* Count *)
    inversion Hstep; subst r'. split; [split|]; assumption.
  - (* a finalizer *)
    destruct (finalize x (world r)) as [w'|] eqn:Hf; [|discriminate].
    inversion Hstep; subst r'; clear Hstep.
    unfold finalize in Hf.
    destruct (existsb (Nat.eqb x) (finalizers (rt (world r)))) eqn:E;
      [|discriminate].
    inversion Hf; subst w'; clear Hf.
    split.
    + unfold exclusive. cbn [world outstanding pool syncPool rt allocs].
      rewrite drop_idle. split.
      * apply NoDup_app_filter, Hnd.
      * apply Forall_app_filter, Hall.
    + intros H. cbn in H. rewrite (Hfresh H) in E. discriminate.
Qed.

(** X16. As long as callers return only items they hold, no item is ever
    in two hands: along every run, under any contexts, the outstanding
    items and the idle items are all different, so a [Borrow] never yields
    an item that is still outstanding. *)
Theorem no_item_in_two_hands (v : bool) (opts : list PoolOption)
        (calls : list Call) (r : Run) :
  honest v calls (fresh opts) = true ->
  run v calls (fresh opts) = Some r ->
  NoDup (outstanding r ++ syncpool.idle (syncPool (pool (world r)))).
Proof.
  intros Hhonest Hrun.
  assert (H0 : exclusive (fresh opts)).
  { unfold exclusive, fresh. cbn [world outstanding].
    rewrite NewPool_shape. cbn. split; constructor. }
  assert (Hb0 : before_bootstrap opts (fresh opts)) by (intros _; reflexivity).
  revert Hhonest Hrun H0 Hb0. generalize (fresh opts) at 1 2 3 4.
  induction calls as [|c calls IH]; intros r0 Hhonest Hrun H0 Hb0;
    cbn [run honest] in *.
  - inversion Hrun; subst r. apply H0.
  - apply andb_true_iff in Hhonest. destruct Hhonest as (Hc & Hrest).
    destruct (step v c r0) as [r1|] eqn:E; [|discriminate].
    destruct (step_exclusive v opts c r0 r1 H0 Hb0 Hc E) as (H1 & Hb1).
    exact (IH r1 Hrest Hrun H1 Hb1).
Qed.

Lemma no_item_in_two_hands_past_the_bound :
  exists r,
    run true [CallSetFactory Background; CallBorrow Background;
              CallBorrow Cancelled; CallReturnItem 0%nat;
              CallBorrow Expiring]
        (fresh [WithSize 1]) = Some r
    /\ outstanding r = [0%nat; 1%nat]
    /\ NoDup (outstanding r ++ syncpool.idle (syncPool (pool (world r)))).
Proof.
  assert (Hrun : run true [CallSetFactory Background; CallBorrow Background;
                           CallBorrow Cancelled; CallReturnItem 0%nat;
                           CallBorrow Expiring]
                     (fresh [WithSize 1])
                 = Some {| world := mkWorld 0 1 None [] true (gate 1 1) 2 2
                                            [1%nat; 0%nat];
                           outstanding := [0%nat; 1%nat] |})
    by reflexivity.
  assert (Hh : honest true [CallSetFactory Background; CallBorrow Background;
                            CallBorrow Cancelled; CallReturnItem 0%nat;
                            CallBorrow Expiring]
                      (fresh [WithSize 1]) = true) by reflexivity.
  eexists. split; [exact Hrun|]. split; [reflexivity|].
  exact (no_item_in_two_hands true [WithSize 1]
           [CallSetFactory Background; CallBorrow Background;
            CallBorrow Cancelled; CallReturnItem 0%nat;
            CallBorrow Expiring] _ Hh Hrun).
Defined.

(** ** Returning an item twice *)

Lemma ReturnItem_returns (x : Item) (w : World) (s : semaphore.Weighted) :
  semMax (pool w) = Some s ->
  1 <= semaphore.cur s ->
  ReturnItem x w = Ret tt (after (ReturnItem x w)).
Proof.
  intros Hs Hcur.
  destruct w as [[i mx sp sem cnt] r]. cbn in Hs. subst sem.
  unfold ReturnItem, bind, release, semaphore.Release.
  cbn -[Z.sub Z.ltb syncpool.Put].
  replace (semaphore.cur s - 1 <? 0) with false
    by (symmetry; apply Z.ltb_ge; lia).
  reflexivity.
Qed.

(** X17. The pool does not notice an item returned twice.  With two permits
    held, two returns of the same item both come back, two permits are
    freed, and the item is in the idle cache twice, so that two borrowers
    can be handed the same item. *)
Theorem ReturnItem_twice_stays_twice (x : Item) (w : World)
        (s : semaphore.Weighted) :
  semMax (pool w) = Some s ->
  2 <= semaphore.cur s ->
  exists w1 w2,
    ReturnItem x w = Ret tt w1
    /\ ReturnItem x w1 = Ret tt w2
    /\ Permutation (syncpool.idle (syncPool (pool w2)))
                   (x :: x :: syncpool.idle (syncPool (pool w)))
    /\ ~ NoDup (syncpool.idle (syncPool (pool w2)))
    /\ semMax (pool w2) = gate (semaphore.size s) (semaphore.cur s - 2)
    /\ rt w2 = rt w.
Proof.
  intros Hs Hcur.
  pose proof (ReturnItem_returns x w s Hs ltac:(lia)) as H1.
  destruct (ReturnItem_effect x w) as (Hrt1 & _ & _ & _ & Hsp1 & Hsem1 & _).
  rewrite Hs in Hsem1.
  set (w1 := after (ReturnItem x w)) in *.
  pose proof (ReturnItem_returns x w1 _ Hsem1 ltac:(cbn; lia)) as H2.
  destruct (ReturnItem_effect x w1) as (Hrt2 & _ & _ & _ & Hsp2 & Hsem2 & _).
  rewrite Hsem1 in Hsem2. cbn [semaphore.size semaphore.cur] in Hsem2.
  set (w2 := after (ReturnItem x w1)) in *.
  assert (Hperm : Permutation (syncpool.idle (syncPool (pool w2)))
                              (x :: x :: syncpool.idle (syncPool (pool w)))).
  { rewrite Hsp2. eapply perm_trans; [apply Put_idle|].
    apply perm_skip. rewrite Hsp1. apply Put_idle. }
  exists w1, w2.
  split; [exact H1|]. split; [exact H2|]. split; [exact Hperm|].
  split.
  - intros Hnd.
    apply (Permutation_NoDup Hperm) in Hnd.
    inversion Hnd as [|? ? Hnot _]; subst. apply Hnot. left. reflexivity.
  - split.
    + rewrite Hsem2. unfold gate. f_equal. f_equal. lia.
    + rewrite Hrt2. exact Hrt1.
Qed.

Lemma ReturnItem_twice_stays_twice_readme :
  exists w w1 w2,
    run true [CallSetFactory Background; CallBorrow Background;
              CallBorrow Background] (fresh [WithSize 5])
    = Some {| world := w; outstanding := [1%nat; 0%nat] |}
    /\ ReturnItem 0%nat w = Ret tt w1
    /\ ReturnItem 0%nat w1 = Ret tt w2
    /\ syncpool.idle (syncPool (pool w2)) = [0%nat; 0%nat].
Proof.
  destruct (ReturnItem_twice_stays_twice 0%nat
              (mkWorld 0 5 None [] true (gate 5 2) 2 2 [1%nat; 0%nat])
              {| semaphore.size := 5; semaphore.cur := 2 |})
    as (w1 & w2 & H1 & H2 & _).
  - reflexivity.
  - simpl. lia.
  - exists (mkWorld 0 5 None [] true (gate 5 2) 2 2 [1%nat; 0%nat]), w1, w2.
    split; [reflexivity|]. split; [exact H1|]. split; [exact H2|].
    assert (E1 : w1 = mkWorld 0 5 (Some 0%nat) [] true (gate 5 1) 2 2
                              [1%nat; 0%nat]).
    { assert (E : Ret tt w1
                  = Ret tt (mkWorld 0 5 (Some 0%nat) [] true (gate 5 1) 2 2
                                    [1%nat; 0%nat]))
        by (rewrite <- H1; reflexivity).
      inversion E. reflexivity. }
    subst w1.
    assert (E : Ret tt w2
                = Ret tt (mkWorld 0 5 (Some 0%nat) [0%nat] true (gate 5 0)
                                  2 2 [1%nat; 0%nat]))
      by (rewrite <- H2; reflexivity).
    inversion E. reflexivity.
Defined.
